(** * NetworkIRR: symmetry-adapted coordinates of a network

    A shallow embedding of [networkIRR.py] (class [NetworkIRR]) and the
    verification of its specification.

    Modelling conventions.
    - NumPy's float64 / complex128 arithmetic is idealised: a real is an
      exact rational ([Qc], canonical fractions, so that equal numbers are
      equal terms) and a complex number is a pair of reals.  Rounding
      error, overflow and NaN are outside the model, and so are character
      values that are not rational.
    - The language is Python 3 ([/] is true division, [round] goes to the
      even neighbour on a tie) with a NumPy from 1.13 (an array compared
      with [None] is compared entry by entry) to 1.23 ([np.float] and
      [np.complex] are still there).
    - Sage and [numpy.linalg.svd] are external: they are taken as
      parameters (record [External]), and the calls that fetch data from
      them are logged (type [call]).
    - A NumPy array lives in a store and is handled by reference, as in
      Python: what a method returns is a reference, and a caller may write
      through it.
    - A Python exception is an outcome [Raise e]; the object keeps the
      fields assigned before the exception was raised. *)

From Stdlib Require Import ZArith QArith Qcanon Qcabs Qround List Lia Bool.
From stdpp Require Import base list option.
Import ListNotations.

Open Scope Z_scope.

(** ** Numbers *)

Module Num.

Abbreviation real := Qc (only parsing).
Abbreviation complex := (Qc * Qc)%type (only parsing).

Definition re (z : complex) : real := fst z.
Definition im (z : complex) : real := snd z.

Definition of_real (x : real) : complex := (x, Q2Qc 0).
Definition real_of_Z (k : Z) : real := Q2Qc (inject_Z k).
Definition of_Z (k : Z) : complex := of_real (real_of_Z k).

Definition czero : complex := of_Z 0.
Definition cone : complex := of_Z 1.

Definition cadd (a b : complex) : complex :=
  (re a + re b, im a + im b)%Qc.

Definition cmul (a b : complex) : complex :=
  (re a * re b - im a * im b, re a * im b + im a * re b)%Qc.

(** [np.conj] *)
Definition conj (z : complex) : complex := (re z, - im z)%Qc.

(** A real times a complex, a complex times a real, a complex over a
    real: what NumPy does when a float meets a complex. *)
Definition rcmul (x : real) (z : complex) : complex :=
  (x * re z, x * im z)%Qc.
Definition crmul (z : complex) (x : real) : complex :=
  (re z * x, im z * x)%Qc.
Definition crdiv (z : complex) (x : real) : complex :=
  (re z / x, im z / x)%Qc.

(** Python 3 [round] of a float: to the nearest integer, a tie going to
    the even neighbour. *)
Definition py_round (x : real) : Z :=
  let f := Qfloor x in
  match ((x - real_of_Z f) ?= Q2Qc (1 # 2))%Qc with
  | Lt => f
  | Gt => f + 1
  | Eq => if Z.even f then f else f + 1
  end.

Definition is_zero (x : real) : bool :=
  match (x ?= Q2Qc 0)%Qc with Eq => true | _ => false end.

(** [x < y] on reals, as a boolean. *)
Definition ltb (x y : real) : bool :=
  match (x ?= y)%Qc with Lt => true | _ => false end.

(** [epsilon=1e-12] *)
Definition epsilon : real := Q2Qc (1 # 1000000000000).

(** [np.abs(w-1.0)<epsilon] *)
Definition near_one (w : real) : bool :=
  ltb (Qcabs (w - Q2Qc 1)) epsilon.

End Num.
Import Num.

(** ** NumPy arrays *)

Inductive dtype := int64 | float64 | complex128.

(** The type of the result of an arithmetic operation on two arrays. *)
Definition promote (a b : dtype) : dtype :=
  match a, b with
  | complex128, _ | _, complex128 => complex128
  | float64, _ | _, float64 => float64
  | int64, int64 => int64
  end.

(** A two-dimensional array: its element type and its rows.  The entries
    of an [int64] or [float64] array have imaginary part zero. *)
Record ndarray := mkarray { arr_dtype : dtype; arr_rows : list (list complex) }.

(** An integer matrix, as Sage's [element.matrix()] gives it. *)
Abbreviation ZMatrix := (list (list Z)) (only parsing).

Definition arr_size (a : ndarray) : nat :=
  fold_right (fun r k => (length r + k)%nat) 0%nat (arr_rows a).

(** [np.zeros((n,n))] *)
Definition np_zeros (n m : nat) : ndarray :=
  mkarray float64 (repeat (repeat czero m) n).

(** [np.trace]: the sum of the entries on the main diagonal. *)
Fixpoint trace_from (k : nat) (m : ZMatrix) : Z :=
  match m with
  | [] => 0
  | r :: m' => nth k r 0 + trace_from (S k) m'
  end.
Definition np_trace (m : ZMatrix) : Z := trace_from 0 m.

(** [mat*complex(c)] for an integer matrix [mat]. *)
Definition mat_times_complex (m : ZMatrix) (c : complex) : list (list complex) :=
  map (map (fun k => cmul (of_Z k) c)) m.

(** Two tables have the same shape: as many rows, of the same lengths. *)
Definition same_shape {A B} (a : list (list A)) (b : list (list B)) : bool :=
  bool_decide (map length a = map length b).

(** Entry-wise sum of two tables of the same shape. *)
Definition madd (a b : list (list complex)) : list (list complex) :=
  zip_with (zip_with cadd) a b.

(** [np.real]: the real parts, as a float64 array. *)
Definition np_real (a : ndarray) : ndarray :=
  mkarray float64 (map (map (fun z => of_real (re z))) (arr_rows a)).

(** [a*x] and [a/x] for a float [x]. *)
Definition arr_times_float (a : ndarray) (x : real) : ndarray :=
  mkarray (promote (arr_dtype a) float64) (map (map (fun z => crmul z x)) (arr_rows a)).
Definition arr_over_float (a : ndarray) (x : real) : ndarray :=
  mkarray (promote (arr_dtype a) float64) (map (map (fun z => crdiv z x)) (arr_rows a)).

(** [np.array(rows)] for a list of one-row arrays; [np.array([])] is a
    float64 array. *)
Definition np_array (rows : list ndarray) : ndarray :=
  mkarray (fold_right (fun r d => promote (arr_dtype r) d) float64 rows)
          (concat (map arr_rows rows)).

(** ** Python outcomes *)

Inductive exn :=
| AttributeError | IndexError | ValueError | TypeError
| LinAlgError | SageError | Exception_.

Inductive outcome (A : Type) :=
| Ok (a : A)
| Raise (e : exn).
Arguments Ok {A} a.
Arguments Raise {A} e.

(** [l[j]] on a Python list or a Sage matrix: a negative index counts
    from the end. *)
Definition py_index (len : nat) (j : Z) : option nat :=
  if (0 <=? j) && (j <? Z.of_nat len) then Some (Z.to_nat j)
  else if (- Z.of_nat len <=? j) && (j <? 0) then Some (Z.to_nat (Z.of_nat len + j))
  else None.

Definition py_getitem {A} (l : list A) (j : Z) : outcome A :=
  match py_index (length l) j with
  | Some k => match l !! k with Some x => Ok x | None => Raise IndexError end
  | None => Raise IndexError
  end.

(** [l[k]] for an index that is never negative (a [range] variable). *)
Definition getitem_nat {A} (l : list A) (k : nat) : outcome A :=
  match l !! k with Some x => Ok x | None => Raise IndexError end.

(** [float(z)] of a Sage number: defined on the reals only. *)
Definition py_float (z : complex) : outcome real :=
  if is_zero (im z) then Ok (re z) else Raise TypeError.

(** [int(z)] of a Sage number: defined on the integers only. *)
Definition py_int (z : complex) : outcome Z :=
  if is_zero (im z) && is_zero (re z - real_of_Z (Qfloor (re z)))%Qc
  then Ok (Qfloor (re z)) else Raise TypeError.

(** [if a == None:] for an array [a].  The comparison is entry-wise
    (since NumPy 1.13) and gives an array of [False]; the truth value
    of an array is that of its only entry, [False] for an empty array, and
    an error for an array of more than one entry. *)
Definition ndarray_eq_None (a : ndarray) : outcome bool :=
  match arr_size a with
  | 0%nat | 1%nat => Ok false
  | _ => Raise ValueError
  end.

(** ** Sage and LAPACK, the external capabilities *)

(** A Sage permutation group, seen through the methods the class calls:
    [order()], [list()] (each element as its node-space matrix),
    [conjugacy_classes()] (each class as the list of its elements'
    matrices, what [ConjugacyClass(group, representative).list()] and
    [element.matrix()] give) and [character_table()]. *)
Record SageGroup := mkgroup {
  order : positive;
  group_list : list ZMatrix;
  conjugacy_classes : list (list ZMatrix);
  character_table : list (list complex)
}.

Record External := mkexternal {
  (** [sg.Graph(sg.Matrix(adjmat)).automorphism_group(orbits=True)];
      [None] when Sage raises. *)
  sage_automorphism_group : ndarray -> option (SageGroup * list (list nat));
  (** [la.svd(P)]: the singular values [W] and the array [VH]; [None]
      when LAPACK raises. *)
  la_svd : ndarray -> option (list real * ndarray)
}.

(** The log of the object records the calls that fetch data: the
    automorphism group with its orbits, the character table, the
    conjugacy classes, the list of elements of a class, and a singular
    value decomposition.  A method evaluated on an object already at hand
    ([group.order()], [conjclass.representative()], [element.matrix()])
    reads that object and is not logged: an unchanged log says that
    nothing was fetched, not that no method of Sage ran. *)
Inductive call :=
| CallAutomorphismGroup
| CallCharacterTable
| CallConjugacyClasses
| CallConjugacyClassList
| CallSvd.

(** ** The object *)

Abbreviation loc := nat (only parsing).

Record NetworkIRR := mkobj {
  _adjmat : option loc;
  _nnodes : nat;
  _group : option SageGroup;
  _orbits : option (list (list nat));
  _permutation_matrices : option (list ZMatrix);
  _conjugacy_classes : option (list (list ZMatrix));
  _conjugacy_classes_matrices : option (list (list ZMatrix));
  _character_table : option (list (list complex));
  _IRR_degeneracies : option (list Z);
  _projection_operators : option (list (option loc));
  _transformation_operator : option loc;
  (** the store of NumPy arrays *)
  heap : list ndarray;
  (** the calls made to Sage and LAPACK, latest first *)
  calls : list call
}.

Definition set_adjmat (l : loc) (n : nat) (s : NetworkIRR) : NetworkIRR :=
  mkobj (Some l) n (_group s) (_orbits s) (_permutation_matrices s)
        (_conjugacy_classes s) (_conjugacy_classes_matrices s) (_character_table s)
        (_IRR_degeneracies s) (_projection_operators s) (_transformation_operator s)
        (heap s) (calls s).

Definition set_group (g : SageGroup) (o : list (list nat)) (s : NetworkIRR) : NetworkIRR :=
  mkobj (_adjmat s) (_nnodes s) (Some g) (Some o) (_permutation_matrices s)
        (_conjugacy_classes s) (_conjugacy_classes_matrices s) (_character_table s)
        (_IRR_degeneracies s) (_projection_operators s) (_transformation_operator s)
        (heap s) (calls s).

Definition set_permutation_matrices (v : list ZMatrix) (s : NetworkIRR) : NetworkIRR :=
  mkobj (_adjmat s) (_nnodes s) (_group s) (_orbits s) (Some v)
        (_conjugacy_classes s) (_conjugacy_classes_matrices s) (_character_table s)
        (_IRR_degeneracies s) (_projection_operators s) (_transformation_operator s)
        (heap s) (calls s).

Definition set_conjugacy_classes (v : list (list ZMatrix)) (s : NetworkIRR) : NetworkIRR :=
  mkobj (_adjmat s) (_nnodes s) (_group s) (_orbits s) (_permutation_matrices s)
        (Some v) (_conjugacy_classes_matrices s) (_character_table s)
        (_IRR_degeneracies s) (_projection_operators s) (_transformation_operator s)
        (heap s) (calls s).

Definition set_conjugacy_classes_matrices (v : list (list ZMatrix)) (s : NetworkIRR)
  : NetworkIRR :=
  mkobj (_adjmat s) (_nnodes s) (_group s) (_orbits s) (_permutation_matrices s)
        (_conjugacy_classes s) (Some v) (_character_table s)
        (_IRR_degeneracies s) (_projection_operators s) (_transformation_operator s)
        (heap s) (calls s).

Definition set_character_table (v : list (list complex)) (s : NetworkIRR) : NetworkIRR :=
  mkobj (_adjmat s) (_nnodes s) (_group s) (_orbits s) (_permutation_matrices s)
        (_conjugacy_classes s) (_conjugacy_classes_matrices s) (Some v)
        (_IRR_degeneracies s) (_projection_operators s) (_transformation_operator s)
        (heap s) (calls s).

Definition set_IRR_degeneracies (v : list Z) (s : NetworkIRR) : NetworkIRR :=
  mkobj (_adjmat s) (_nnodes s) (_group s) (_orbits s) (_permutation_matrices s)
        (_conjugacy_classes s) (_conjugacy_classes_matrices s) (_character_table s)
        (Some v) (_projection_operators s) (_transformation_operator s)
        (heap s) (calls s).

Definition set_projection_operators (v : list (option loc)) (s : NetworkIRR) : NetworkIRR :=
  mkobj (_adjmat s) (_nnodes s) (_group s) (_orbits s) (_permutation_matrices s)
        (_conjugacy_classes s) (_conjugacy_classes_matrices s) (_character_table s)
        (_IRR_degeneracies s) (Some v) (_transformation_operator s)
        (heap s) (calls s).

Definition set_transformation_operator (l : loc) (s : NetworkIRR) : NetworkIRR :=
  mkobj (_adjmat s) (_nnodes s) (_group s) (_orbits s) (_permutation_matrices s)
        (_conjugacy_classes s) (_conjugacy_classes_matrices s) (_character_table s)
        (_IRR_degeneracies s) (_projection_operators s) (Some l)
        (heap s) (calls s).

Definition set_heap (h : list ndarray) (s : NetworkIRR) : NetworkIRR :=
  mkobj (_adjmat s) (_nnodes s) (_group s) (_orbits s) (_permutation_matrices s)
        (_conjugacy_classes s) (_conjugacy_classes_matrices s) (_character_table s)
        (_IRR_degeneracies s) (_projection_operators s) (_transformation_operator s)
        h (calls s).

Definition log_calls (c : list call) (s : NetworkIRR) : NetworkIRR :=
  mkobj (_adjmat s) (_nnodes s) (_group s) (_orbits s) (_permutation_matrices s)
        (_conjugacy_classes s) (_conjugacy_classes_matrices s) (_character_table s)
        (_IRR_degeneracies s) (_projection_operators s) (_transformation_operator s)
        (heap s) (c ++ calls s).

(** ** The monad of methods: state and exceptions *)

Definition M (A : Type) : Type := NetworkIRR -> outcome A * NetworkIRR.

Definition ret {A} (a : A) : M A := fun s => (Ok a, s).
Definition raise {A} (e : exn) : M A := fun s => (Raise e, s).
Definition bind {A B} (m : M A) (f : A -> M B) : M B :=
  fun s => match m s with
           | (Ok a, s') => f a s'
           | (Raise e, s') => (Raise e, s')
           end.
Definition lift {A} (o : outcome A) : M A := fun s => (o, s).
Definition gets {A} (f : NetworkIRR -> A) : M A := fun s => (Ok (f s), s).
Definition modify (f : NetworkIRR -> NetworkIRR) : M unit := fun s => (Ok tt, f s).

Declare Scope py_scope.
Delimit Scope py_scope with py.
Notation "x <- m ;; k" := (bind m (fun x => k))
  (at level 100, m at next level, right associativity) : py_scope.
Notation "m ;; k" := (bind m (fun _ => k))
  (at level 100, right associativity) : py_scope.
Local Open Scope py_scope.

(** The pure part of a method, where only exceptions occur. *)
Definition obind {A B} (o : outcome A) (f : A -> outcome B) : outcome B :=
  match o with Ok a => f a | Raise e => Raise e end.

(** A new array in the store; the reference to it is returned. *)
Definition alloc (a : ndarray) : M loc :=
  fun s => (Ok (length (heap s)), set_heap (heap s ++ [a]) s).

(** The array behind a reference.  Every reference the object holds comes
    from [alloc], so the second case does not occur. *)
Definition deref (l : loc) : M ndarray :=
  fun s => match heap s !! l with
           | Some a => (Ok a, s)
           | None => (Raise ValueError, s)
           end.

(** What a caller does with a reference it was handed: an in-place
    assignment to the array, [P[...] = ...]. *)
Definition caller_write (l : loc) (a : ndarray) (s : NetworkIRR) : NetworkIRR :=
  set_heap (<[l := a]> (heap s)) s.

(** ** The methods of [NetworkIRR] *)

(** The methods are in the order of the source.  A [print] statement is
    left out, but not the calls its argument makes. *)

(** The object before its constructor has run. *)
Definition new_object : NetworkIRR :=
  mkobj None 0 None None None None None None None None None [] [].

Definition _reset_data : M unit :=
  modify (fun s =>
    mkobj None 0 None None None None None None None None None (heap s) (calls s)).

(** [adjmat] is the caller's array, or [None] (the constructor's
    default), on which [adjmat.copy()] raises. *)
Definition _set_adjacency_matrix (adjmat : option ndarray) : M unit :=
  _reset_data ;;
  match adjmat with
  | None => raise AttributeError
  | Some a =>
      l <- alloc a ;;
      modify (set_adjmat l (length (arr_rows a)))
  end.

Definition __init__ (adjmat : option ndarray) : M unit :=
  _reset_data ;;
  _set_adjacency_matrix adjmat.

Definition get_adjacency_matrix : M loc :=
  o <- gets _adjmat ;;
  match o with
  | None => raise AttributeError
  | Some l => a <- deref l ;; alloc a
  end.

Section Methods.

Variable ext : External.

(** [self._adjmat] is handed to [sg.Matrix] as it is, with no copy.  On
    an object whose adjacency matrix is [None], [sg.Matrix(None)] is the
    matrix without rows and columns, and Sage is asked for the group of
    the graph without nodes. *)
Definition get_automorphism_group : M SageGroup :=
  o <- gets _group ;;
  match o with
  | Some g => ret g
  | None =>
      oa <- gets _adjmat ;;
      a <- match oa with
           | None => ret (mkarray int64 [])
           | Some l => deref l
           end ;;
      modify (log_calls [CallAutomorphismGroup]) ;;
      match sage_automorphism_group ext a with
      | None => raise SageError
      | Some (g, orb) => modify (set_group g orb) ;; ret g
      end
  end.

Definition get_automorphism_group_matrices : M (list ZMatrix) :=
  o <- gets _group ;;
  g <- match o with
       | Some g => ret g
       | None => get_automorphism_group
       end ;;
  op <- gets _permutation_matrices ;;
  match op with
  | Some ms => ret ms
  | None => modify (set_permutation_matrices (group_list g)) ;; ret (group_list g)
  end.

(** [print(self.get_adjacency_matrix())] makes a copy of the adjacency
    matrix, and so does the argument of [sg.Matrix]. *)
Definition get_orbits : M (list (list nat)) :=
  get_adjacency_matrix ;;
  o <- gets _orbits ;;
  match o with
  | Some orb => ret orb
  | None =>
      l <- get_adjacency_matrix ;;
      a <- deref l ;;
      modify (log_calls [CallAutomorphismGroup]) ;;
      match sage_automorphism_group ext a with
      | None => raise SageError
      | Some (g, orb) => modify (set_group g orb) ;; ret orb
      end
  end.

Definition get_character_table : M (list (list complex)) :=
  o <- gets _character_table ;;
  match o with
  | Some t => ret t
  | None =>
      g <- get_automorphism_group ;;
      modify (log_calls [CallCharacterTable]) ;;
      modify (set_character_table (character_table g)) ;;
      ret (character_table g)
  end.

Definition get_conjugacy_classes : M (list (list ZMatrix)) :=
  o <- gets _conjugacy_classes ;;
  match o with
  | Some c => ret c
  | None =>
      og <- gets _group ;;
      g <- match og with
           | Some g => ret g
           | None => get_automorphism_group
           end ;;
      modify (log_calls [CallConjugacyClasses]) ;;
      modify (set_conjugacy_classes (conjugacy_classes g)) ;;
      ret (conjugacy_classes g)
  end.

(** A class is modelled by the matrices of its elements, so the two
    loops that convert every element of every class copy the list. *)
Definition get_conjugacy_classes_matrices : M (list (list ZMatrix)) :=
  o <- gets _conjugacy_classes ;;
  classes <- match o with
             | Some c => ret c
             | None => get_conjugacy_classes
             end ;;
  om <- gets _conjugacy_classes_matrices ;;
  match om with
  | Some ms => ret ms
  | None =>
      modify (log_calls (map (fun _ => CallConjugacyClassList) classes)) ;;
      modify (set_conjugacy_classes_matrices classes) ;;
      ret classes
  end.

Definition get_numIRRs : M nat :=
  characters <- get_character_table ;;
  row <- lift (getitem_nat characters 0) ;;
  ret (length row).

(** One summand of the degeneracy of IRR [i]:
    [float(len(matricies[j])/group_order) * conj(complex(characters[i][j]))
     * trace(matricies[j][0])]. *)
Definition degeneracy_term (group_order : positive) (characters : list (list complex))
    (matricies : list (list ZMatrix)) (i j : nat) : outcome complex :=
  obind (getitem_nat matricies j) (fun cls =>
  obind (getitem_nat characters i) (fun row =>
  obind (getitem_nat row j) (fun chi =>
  obind (getitem_nat cls 0) (fun rep =>
    Ok (crmul (rcmul (real_of_Z (Z.of_nat (length cls)) / real_of_Z (Z.pos group_order))%Qc
                     (conj chi))
              (real_of_Z (np_trace rep))))))).

(** The inner loop, [for j in range(numIRRs)], on the local [total]. *)
Fixpoint degeneracy_total (group_order : positive) (characters : list (list complex))
    (matricies : list (list ZMatrix)) (i : nat) (js : list nat) (total : complex)
  : outcome complex :=
  match js with
  | [] => Ok total
  | j :: js' =>
      obind (degeneracy_term group_order characters matricies i j) (fun t =>
        degeneracy_total group_order characters matricies i js' (cadd total t))
  end.

(** [self._IRR_degeneracies.append(x)] *)
Definition append_degeneracy (x : Z) : M unit :=
  o <- gets _IRR_degeneracies ;;
  match o with
  | None => raise AttributeError
  | Some l => modify (set_IRR_degeneracies (l ++ [x]))
  end.

(** The outer loop, [for i in range(numIRRs)]. *)
Fixpoint degeneracies_loop (group_order : positive) (characters : list (list complex))
    (matricies : list (list ZMatrix)) (numIRRs : nat) (ks : list nat) : M unit :=
  match ks with
  | [] => ret tt
  | i :: ks' =>
      total <- lift (degeneracy_total group_order characters matricies i
                       (seq 0 numIRRs) czero) ;;
      append_degeneracy (py_round (re total)) ;;
      degeneracies_loop group_order characters matricies numIRRs ks'
  end.

Definition get_IRR_degeneracies : M (list Z) :=
  o <- gets _IRR_degeneracies ;;
  match o with
  | Some d => ret d
  | None =>
      characters <- get_character_table ;;
      row <- lift (getitem_nat characters 0) ;;
      g <- get_automorphism_group ;;
      modify (set_IRR_degeneracies []) ;;
      matricies <- get_conjugacy_classes_matrices ;;
      degeneracies_loop (order g) characters matricies (length row)
                        (seq 0 (length row)) ;;
      o' <- gets _IRR_degeneracies ;;
      match o' with
      | Some d => ret d
      | None => raise TypeError
      end
  end.

(** [M[j,0]] on a Sage matrix. *)
Definition sage_entry (t : list (list complex)) (j k : Z) : outcome complex :=
  obind (py_getitem t j) (fun row => py_getitem row k).

(** [for mat in matricies[i]: result=result+mat*complex(characters[i])].
    Sage gives every element as an [n]-by-[n] matrix, the shape of
    [result]; an operand of another shape is refused (NumPy's stretching
    of an axis of length one is not modelled). *)
Fixpoint projection_inner (c : complex) (mats : list ZMatrix) (result : ndarray)
  : outcome ndarray :=
  match mats with
  | [] => Ok result
  | mat :: mats' =>
      if same_shape (arr_rows result) mat
      then projection_inner c mats'
             (mkarray (promote (arr_dtype result) complex128)
                      (madd (arr_rows result) (mat_times_complex mat c)))
      else Raise ValueError
  end.

(** [for i in range(len(characters))] *)
Fixpoint projection_outer (characters : list complex) (matricies : list (list ZMatrix))
    (ks : list nat) (result : ndarray) : outcome ndarray :=
  match ks with
  | [] => Ok result
  | i :: ks' =>
      obind (getitem_nat matricies i) (fun mats =>
      obind (getitem_nat characters i) (fun c =>
      obind (projection_inner c mats result) (fun result' =>
        projection_outer characters matricies ks' result')))
  end.

(** [self._projection_operators[j] == None] *)
Definition projection_slot_is_None (slot : option loc) : M bool :=
  match slot with
  | None => ret true
  | Some l => a <- deref l ;; lift (ndarray_eq_None a)
  end.

Definition get_projection_operator (j : Z) : M loc :=
  degen <- get_IRR_degeneracies ;;
  o <- gets _projection_operators ;;
  match o with
  | None => modify (set_projection_operators (repeat None (length degen)))
  | Some _ => ret tt
  end ;;
  o1 <- gets _projection_operators ;;
  slot <- lift (py_getitem (default [] o1) j) ;;
  isnone <- projection_slot_is_None slot ;;
  (if isnone : bool then
     t <- get_character_table ;;
     IRR_dimension <- lift (sage_entry t j 0) ;;
     g <- get_automorphism_group ;;
     t' <- get_character_table ;;
     characters <- lift (py_getitem t' j) ;;
     matricies <- get_conjugacy_classes_matrices ;;
     n <- gets _nnodes ;;
     result <- lift (projection_outer characters matricies
                       (seq 0 (length characters)) (np_zeros n n)) ;;
     d <- lift (py_float IRR_dimension) ;;
     l <- alloc (arr_over_float (arr_times_float result d)
                                (real_of_Z (Z.pos (order g)))) ;;
     o2 <- gets _projection_operators ;;
     match py_index (length (default [] o2)) j with
     | Some k => modify (set_projection_operators (<[k := Some l]> (default [] o2)))
     | None => raise IndexError
     end
   else ret tt) ;;
  o3 <- gets _projection_operators ;;
  slot' <- lift (py_getitem (default [] o3) j) ;;
  match slot' with
  | Some l => ret l
  | None => raise TypeError
  end.

(** [for i,w in enumerate(W)]: count the singular values within
    [epsilon] of one and append the matching rows of [VH]. *)
Fixpoint collect_rows (VH : ndarray) (i : nat) (W : list real) (R2 : Z)
    (result : list ndarray) : outcome (Z * list ndarray) :=
  match W with
  | [] => Ok (R2, result)
  | w :: W' =>
      if near_one w
      then obind (getitem_nat (arr_rows VH) i) (fun row =>
             collect_rows VH (S i) W' (R2 + 1)
                          (result ++ [mkarray (arr_dtype VH) [row]]))
      else collect_rows VH (S i) W' R2 result
  end.

(** The body of [if degens[j]:] from [la.svd(P)] on: the
    decomposition, the rows collected, and the check of the rank. *)
Definition collect_singular_vectors (IRR_dimension : complex) (dj : Z) (P : loc)
    (result : list ndarray) : M (list ndarray) :=
  a <- deref P ;;
  modify (log_calls [CallSvd]) ;;
  match la_svd ext a with
  | None => raise LinAlgError
  | Some (W, VH) =>
      dim <- lift (py_int IRR_dimension) ;;
      r <- lift (collect_rows VH 0 W 0 result) ;;
      if (dim * dj =? fst r) then ret (snd r) else raise Exception_
  end.

(** The body of [for j in range(len(degens))].  The local [total], which
    is summed and never read, is left out. *)
Definition transformation_step (degens : list Z) (j : nat) (result : list ndarray)
  : M (list ndarray) :=
  t <- get_character_table ;;
  IRR_dimension <- lift (sage_entry t (Z.of_nat j) 0) ;;
  dj <- lift (getitem_nat degens j) ;;
  if dj =? 0 then ret result
  else
    P <- get_projection_operator (Z.of_nat j) ;;
    collect_singular_vectors IRR_dimension dj P result.

Fixpoint transformation_loop (degens : list Z) (js : list nat) (result : list ndarray)
  : M (list ndarray) :=
  match js with
  | [] => ret result
  | j :: js' =>
      result' <- transformation_step degens j result ;;
      transformation_loop degens js' result'
  end.

(** [self._transformation_operator == None] *)
Definition transformation_is_None : M bool :=
  o <- gets _transformation_operator ;;
  match o with
  | None => ret true
  | Some l => a <- deref l ;; lift (ndarray_eq_None a)
  end.

Definition get_transformation_operator : M loc :=
  isnone <- transformation_is_None ;;
  (if isnone : bool then
     degens <- get_IRR_degeneracies ;;
     result <- transformation_loop degens (seq 0 (length degens)) [] ;;
     l <- alloc (np_array result) ;;
     modify (set_transformation_operator l)
   else ret tt) ;;
  o <- gets _transformation_operator ;;
  match o with
  | None => raise AttributeError
  | Some l => a <- deref l ;; alloc a
  end.

End Methods.

(** ** The formulas of the specification *)

Module Spec.

(** The number of IRRs: the rows of the character table. *)
Definition numIRRs (g : SageGroup) : nat := length (character_table g).

Definition group_order (g : SageGroup) : real := real_of_Z (Z.pos (order g)).

Definition csum (l : list complex) : complex := fold_right cadd czero l.

(** [d_i = round(Re(sum_j (|class_j|/|G|) conj(character[i][j]) trace(class_j[0])))] *)
Definition degeneracy (g : SageGroup) (i : nat) : Z :=
  py_round (re (csum (zip_with
    (fun cls chi =>
       cmul (cmul (of_real (real_of_Z (Z.of_nat (length cls)) / group_order g)%Qc)
                  (conj chi))
            (of_Z (np_trace (hd [] cls))))
    (conjugacy_classes g) (nth i (character_table g) [])))).

(** One degeneracy per IRR, in the order of the rows of the table. *)
Definition degeneracies (g : SageGroup) : list Z :=
  map (degeneracy g) (seq 0 (numIRRs g)).

(** [D(g)], the permutation matrix of an element, as a complex matrix. *)
Definition D (m : ZMatrix) : list (list complex) := map (map of_Z) m.

Definition mscale (c : complex) (m : list (list complex)) : list (list complex) :=
  map (map (cmul c)) m.

(** The sum of a list of [n]-by-[n] matrices. *)
Definition msum (n : nat) (l : list (list (list complex))) : list (list complex) :=
  fold_right madd (repeat (repeat czero n) n) l.

(** [dimension_i], the entry [[i,0]] of the table. *)
Definition dimension (g : SageGroup) (i : nat) : complex :=
  nth 0 (nth i (character_table g) []) czero.

(** [P_i = (dimension_i/|G|) sum_j sum_{g in class_j} character[i][j] D(g)] *)
Definition projection (g : SageGroup) (n i : nat) : list (list complex) :=
  mscale (crdiv (dimension g i) (group_order g))
    (msum n (concat (zip_with
       (fun cls chi => map (fun m => mscale chi (D m)) cls)
       (conjugacy_classes g) (nth i (character_table g) [])))).

(** [P_i] as the array that holds it. *)
Definition projection_array (g : SageGroup) (n i : nat) : ndarray :=
  mkarray complex128 (projection g n i).

(** [|w - 1| < 1e-12], the bound of the specification written out as
    the fraction [1/10^12]. *)
Definition close_to_one (w : real) : bool :=
  ltb (Qcabs (w - real_of_Z 1)) (Q2Qc (1 # 10 ^ 12)).

(** The rows of [VH] whose singular value [w] has [|w - 1| < 1e-12]. *)
Definition selected_rows (W : list real) (VH : ndarray) : list ndarray :=
  concat (zip_with
    (fun w row => if close_to_one w then [mkarray (arr_dtype VH) [row]] else [])
    W (arr_rows VH)).

(** The rows IRR [j] contributes: none if its degeneracy is zero, else
    the selected rows of the decomposition of [P_j]. *)
Definition irr_rows (ext : External) (g : SageGroup) (n j : nat) : list ndarray :=
  if degeneracy g j =? 0 then []
  else match la_svd ext (projection_array g n j) with
       | Some (W, VH) => selected_rows W VH
       | None => []
       end.

(** The row sets of all IRRs, concatenated in IRR order. *)
Definition transformation (ext : External) (g : SageGroup) (n : nat) : ndarray :=
  np_array (concat (map (irr_rows ext g n) (seq 0 (numIRRs g)))).

(** [R1 = dimension_j * degeneracy_j] *)
Definition R1 (g : SageGroup) (j : nat) : Z :=
  Qfloor (re (dimension g j)) * degeneracy g j.

(** [R2], the number of singular values [w] with [|w - 1| < 1e-12]. *)
Definition R2 (W : list real) : Z :=
  Z.of_nat (length (List.filter close_to_one W)).

(** IRR [j] passes the rank check: it is skipped, or [R1 = R2]. *)
Definition rank_consistent (ext : External) (g : SageGroup) (n j : nat) : bool :=
  (degeneracy g j =? 0) ||
  match la_svd ext (projection_array g n j) with
  | Some (W, _) => R1 g j =? R2 W
  | None => false
  end.

(** [la.svd] returns for every IRR that is not skipped, with a row of
    [VH] for every singular value. *)
Definition svd_defined (ext : External) (g : SageGroup) (n : nat) : Prop :=
  forall j, (j < numIRRs g)%nat -> degeneracy g j <> 0 ->
    exists W VH, la_svd ext (projection_array g n j) = Some (W, VH) /\
                 (length W <= length (arr_rows VH))%nat.

End Spec.

(** ** Invariants *)

(** The invariants of the oracle's data that the degeneracies rely on:
    a square character table with a row per conjugacy class, and no empty
    class. *)
Record valid_table (g : SageGroup) : Prop := {
  valid_classes : length (conjugacy_classes g) = length (character_table g);
  valid_columns :
    Forall (fun row : list complex => length row = length (character_table g))
           (character_table g);
  valid_rows : character_table g <> [];
  valid_class_nonempty :
    Forall (fun cls : list ZMatrix => cls <> []) (conjugacy_classes g)
}.

(** The invariants the projection operators rely on as well: every
    element is an [n]-by-[n] matrix and column 0 of the table holds the
    dimensions, which are integers. *)
Record valid_matrices (n : nat) (g : SageGroup) : Prop := {
  valid_shapes :
    Forall (Forall (fun m : ZMatrix => map length m = repeat n n))
           (conjugacy_classes g);
  valid_dimension :
    Forall (fun row : list complex => exists d : Z, nth 0 row czero = of_Z d)
           (character_table g)
}.

Definition cached {A} (o : option A) (v : A) : Prop := o = None \/ o = Some v.

(** A state of the object whose cached Sage data is what Sage returns
    for its adjacency matrix. *)
Record oracle_good (ext : External) (g : SageGroup) (s : NetworkIRR) : Prop := {
  good_adjmat :
    exists l a orb, _adjmat s = Some l /\ heap s !! l = Some a /\
                    sage_automorphism_group ext a = Some (g, orb);
  good_group : cached (_group s) g;
  good_table : cached (_character_table s) (character_table g);
  good_classes : cached (_conjugacy_classes s) (conjugacy_classes g);
  good_matrices : cached (_conjugacy_classes_matrices s) (conjugacy_classes g)
}.

(** A state whose cached degeneracies are right as well, and whose list
    of projection operators, once made, has a slot per IRR. *)
Record good (ext : External) (g : SageGroup) (s : NetworkIRR) : Prop := {
  good_oracle : oracle_good ext g s;
  good_degeneracies : cached (_IRR_degeneracies s) (Spec.degeneracies g);
  good_slots :
    forall v, _projection_operators s = Some v -> length v = Spec.numIRRs g
}.

(** The projection operator slot [k] of a state. *)
Definition slot (s : NetworkIRR) (k : nat) : option loc :=
  mjoin (default [] (_projection_operators s) !! k).

(** What a method call leaves intact: the adjacency matrix, every array
    of the store, and every field that was cached. *)
Record frame (s s' : NetworkIRR) : Prop := {
  frame_adjmat : _adjmat s' = _adjmat s;
  frame_nnodes : _nnodes s' = _nnodes s;
  frame_heap : exists h, heap s' = heap s ++ h;
  frame_group : forall v, _group s = Some v -> _group s' = Some v;
  frame_table : forall v, _character_table s = Some v -> _character_table s' = Some v;
  frame_classes :
    forall v, _conjugacy_classes s = Some v -> _conjugacy_classes s' = Some v;
  frame_matrices :
    forall v, _conjugacy_classes_matrices s = Some v ->
              _conjugacy_classes_matrices s' = Some v;
  frame_degeneracies :
    forall v, _IRR_degeneracies s = Some v -> _IRR_degeneracies s' = Some v;
  frame_slots : forall k l, slot s k = Some l -> slot s' k = Some l
}.

(** A call that touches no array: the store and the two fields that hold
    array references are the same. *)
Definition same_arrays (s s' : NetworkIRR) : Prop :=
  heap s' = heap s /\
  _projection_operators s' = _projection_operators s /\
  _transformation_operator s' = _transformation_operator s.

(** ** Auxiliary definitions for the proofs *)

(** The summand [get_IRR_degeneracies] computes for IRR [i] and class
    [j], the lists being read with defaults. *)
Definition code_term (g : SageGroup) (i j : nat) : complex :=
  let cls := nth j (conjugacy_classes g) [] in
  crmul (rcmul (real_of_Z (Z.of_nat (length cls)) / real_of_Z (Z.pos (order g)))%Qc
               (conj (nth j (nth i (character_table g) []) czero)))
        (real_of_Z (np_trace (hd [] cls))).

(** The element type of an array after [terms] have been added to it. *)
Definition sum_dtype {A} (d : dtype) (terms : list A) : dtype :=
  match terms with [] => d | _ => complex128 end.

(** A logged call that fetches from Sage, not from LAPACK. *)
Definition is_sage_call (c : call) : bool :=
  match c with CallSvd => false | _ => true end.

(** What has been fetched from Sage so far, latest first. *)
Definition sage_calls (s : NetworkIRR) : list call :=
  List.filter is_sage_call (calls s).

(** Every field that holds Sage data is filled, and so are the
    degeneracies. *)
Definition saturated (s : NetworkIRR) : Prop :=
  is_Some (_group s) /\ is_Some (_character_table s) /\
  is_Some (_conjugacy_classes s) /\ is_Some (_conjugacy_classes_matrices s) /\
  is_Some (_IRR_degeneracies s).

(** [total], the sum of [R1] over the IRRs that are not skipped, which
    the loop of [get_transformation_operator] accumulates. *)
Definition total (g : SageGroup) : Z :=
  fold_right Z.add 0
    (map (fun j => if Spec.degeneracy g j =? 0 then 0 else Spec.R1 g j)
         (seq 0 (Spec.numIRRs g))).

(** ** Small networks *)

Module Examples.

Definition i_ : complex := (Q2Qc 0, Q2Qc 1).

(** A singular value decomposition of a 1-by-1 array with a
    non-negative real entry. *)
Definition svd_1x1 (a : ndarray) : option (list real * ndarray) :=
  match arr_rows a with
  | [[z]] => Some ([re z], mkarray (arr_dtype a) [[cone]])
  | _ => None
  end.

(** The same, the singular value being off by [1e-6]. *)
Definition svd_1x1_off (a : ndarray) : option (list real * ndarray) :=
  match arr_rows a with
  | [[z]] => Some ([(re z - Q2Qc (1 # 1000000))%Qc], mkarray (arr_dtype a) [[cone]])
  | _ => None
  end.

(** The single isolated node. *)
Definition trivial_adjmat : ndarray := mkarray int64 [[of_Z 0]].
Definition trivial_group : SageGroup :=
  mkgroup 1 [[[1]]] [[[[1]]]] [[of_Z 1]].
Definition trivial_ext : External :=
  mkexternal (fun _ => Some (trivial_group, [[0%nat]])) svd_1x1.
Definition trivial_ext_off : External :=
  mkexternal (fun _ => Some (trivial_group, [[0%nat]])) svd_1x1_off.
Definition trivial_network : NetworkIRR :=
  snd (__init__ (Some trivial_adjmat) new_object).

(** Two arrays that are not adjacency matrices: one row of two
    entries, and no row at all. *)
Definition wide_adjmat : ndarray := mkarray int64 [[of_Z 0; of_Z 1]].
Definition empty_adjmat : ndarray := mkarray float64 [].

(** Data that breaks an invariant of the oracle: a conjugacy class
    without elements. *)
Definition broken_group : SageGroup := mkgroup 1 [] [[]] [[of_Z 1]].
Definition broken_ext : External :=
  mkexternal (fun _ => Some (broken_group, [[0%nat]])) svd_1x1.

(** An oracle that fails. *)
Definition failing_ext : External :=
  mkexternal (fun _ => None) (fun _ => None).

(** The complete graph on two nodes. *)
Definition K2_adjmat : ndarray :=
  mkarray int64 [[of_Z 0; of_Z 1]; [of_Z 1; of_Z 0]].
Definition K2_identity : ZMatrix := [[1; 0]; [0; 1]].
Definition K2_swap : ZMatrix := [[0; 1]; [1; 0]].
Definition K2_group : SageGroup :=
  mkgroup 2 [K2_identity; K2_swap] [[K2_identity]; [K2_swap]]
          [[of_Z 1; of_Z 1]; [of_Z 1; of_Z (-1)]].
Definition K2_ext : External :=
  mkexternal (fun _ => Some (K2_group, [[0%nat; 1%nat]])) (fun _ => None).
Definition K2_network : NetworkIRR :=
  snd (__init__ (Some K2_adjmat) new_object).

(** A stub oracle that answers with the cyclic group of order four
    turning four nodes, the smallest group with characters that are not
    real.  The adjacency matrix is a placeholder: the graphs whose
    automorphism group is cyclic of order four are larger. *)
Definition C4_adjmat : ndarray :=
  mkarray int64 [[of_Z 0; of_Z 1; of_Z 0; of_Z 0]; [of_Z 0; of_Z 0; of_Z 1; of_Z 0];
                 [of_Z 0; of_Z 0; of_Z 0; of_Z 1]; [of_Z 1; of_Z 0; of_Z 0; of_Z 0]].
Definition C4_r0 : ZMatrix := [[1;0;0;0]; [0;1;0;0]; [0;0;1;0]; [0;0;0;1]].
Definition C4_r1 : ZMatrix := [[0;1;0;0]; [0;0;1;0]; [0;0;0;1]; [1;0;0;0]].
Definition C4_r2 : ZMatrix := [[0;0;1;0]; [0;0;0;1]; [1;0;0;0]; [0;1;0;0]].
Definition C4_r3 : ZMatrix := [[0;0;0;1]; [1;0;0;0]; [0;1;0;0]; [0;0;1;0]].
Definition C4_group : SageGroup :=
  mkgroup 4 [C4_r0; C4_r1; C4_r2; C4_r3] [[C4_r0]; [C4_r1]; [C4_r2]; [C4_r3]]
          [[of_Z 1; of_Z 1; of_Z 1; of_Z 1];
           [of_Z 1; i_; of_Z (-1); conj i_];
           [of_Z 1; of_Z (-1); of_Z 1; of_Z (-1)];
           [of_Z 1; conj i_; of_Z (-1); i_]].
Definition C4_ext : External :=
  mkexternal (fun _ => Some (C4_group, [[0%nat; 1%nat; 2%nat; 3%nat]])) (fun _ => None).
Definition C4_network : NetworkIRR :=
  snd (__init__ (Some C4_adjmat) new_object).

(** The square, the cycle 0-1-2-3-0.  Its automorphism group is the
    dihedral group of order eight: the identity, the reflections through
    two opposite nodes, the reflections through two opposite edges, the
    quarter turns and the half turn, which are its five conjugacy classes.
    An element is given as the matrix with a one at [(i, g(i))]. *)
Definition square_adjmat : ndarray :=
  mkarray int64 [[of_Z 0; of_Z 1; of_Z 0; of_Z 1]; [of_Z 1; of_Z 0; of_Z 1; of_Z 0];
                 [of_Z 0; of_Z 1; of_Z 0; of_Z 1]; [of_Z 1; of_Z 0; of_Z 1; of_Z 0]].
Definition D4_e : ZMatrix := [[1;0;0;0]; [0;1;0;0]; [0;0;1;0]; [0;0;0;1]].
Definition D4_s1 : ZMatrix := [[1;0;0;0]; [0;0;0;1]; [0;0;1;0]; [0;1;0;0]].
Definition D4_s2 : ZMatrix := [[0;0;1;0]; [0;1;0;0]; [1;0;0;0]; [0;0;0;1]].
Definition D4_t1 : ZMatrix := [[0;1;0;0]; [1;0;0;0]; [0;0;0;1]; [0;0;1;0]].
Definition D4_t2 : ZMatrix := [[0;0;0;1]; [0;0;1;0]; [0;1;0;0]; [1;0;0;0]].
Definition D4_r1 : ZMatrix := [[0;1;0;0]; [0;0;1;0]; [0;0;0;1]; [1;0;0;0]].
Definition D4_r2 : ZMatrix := [[0;0;1;0]; [0;0;0;1]; [1;0;0;0]; [0;1;0;0]].
Definition D4_r3 : ZMatrix := [[0;0;0;1]; [1;0;0;0]; [0;1;0;0]; [0;0;1;0]].

(** The character table has the trivial character first, then two
    characters of dimension one that the nodes do not carry, then the
    character that is one on the reflections through the nodes and minus
    one on the quarter turns, then the character of dimension two. *)
Definition D4_group : SageGroup :=
  mkgroup 8 [D4_e; D4_s1; D4_s2; D4_t1; D4_t2; D4_r1; D4_r3; D4_r2]
          [[D4_e]; [D4_s1; D4_s2]; [D4_t1; D4_t2]; [D4_r1; D4_r3]; [D4_r2]]
          [[of_Z 1; of_Z 1; of_Z 1; of_Z 1; of_Z 1];
           [of_Z 1; of_Z (-1); of_Z (-1); of_Z 1; of_Z 1];
           [of_Z 1; of_Z (-1); of_Z 1; of_Z (-1); of_Z 1];
           [of_Z 1; of_Z 1; of_Z (-1); of_Z (-1); of_Z 1];
           [of_Z 2; of_Z 0; of_Z 0; of_Z 0; of_Z (-2)]].

Definition half : complex := of_real (Q2Qc (1 # 2)).
Definition mhalf : complex := of_real (Q2Qc (-1 # 2)).

(** The four vectors with entries of modulus one half that the
    projection operators of the square single out. *)
Definition square_even : list complex := [half; half; half; half].
Definition square_odd : list complex := [half; mhalf; half; mhalf].
Definition square_pair1 : list complex := [half; half; mhalf; mhalf].
Definition square_pair2 : list complex := [half; mhalf; mhalf; half].

(** Singular value decompositions of the three projection operators of
    the square that are not zero, told apart by their entry [[0,1]]: the
    operator of rank two, whose entry is zero, the operator of the
    alternating character, whose entry is negative, and the operator of
    the trivial character.  The singular values are in descending order
    and the rows of [VH] are orthonormal. *)
Definition square_svd (a : ndarray) : option (list real * ndarray) :=
  match arr_rows a with
  | (_ :: z :: _) :: _ =>
      if is_zero (re z) then
        Some ([real_of_Z 1; real_of_Z 1; real_of_Z 0; real_of_Z 0],
              mkarray complex128 [square_pair1; square_pair2; square_even; square_odd])
      else if ltb (re z) (real_of_Z 0) then
        Some ([real_of_Z 1; real_of_Z 0; real_of_Z 0; real_of_Z 0],
              mkarray complex128 [square_odd; square_even; square_pair1; square_pair2])
      else
        Some ([real_of_Z 1; real_of_Z 0; real_of_Z 0; real_of_Z 0],
              mkarray complex128 [square_even; square_odd; square_pair1; square_pair2])
  | _ => None
  end.
Definition D4_ext : External :=
  mkexternal
    (fun _ => Some (D4_group, [[0%nat; 1%nat; 2%nat; 3%nat]])) square_svd.
Definition square_network : NetworkIRR :=
  snd (__init__ (Some square_adjmat) new_object).

End Examples.

(** ** Arithmetic of the complex numbers *)

Section ComplexFacts.

Lemma complex_eq (a b : complex) : re a = re b -> im a = im b -> a = b.
Proof. destruct a, b; simpl; congruence. Qed.

Lemma cadd_comm a b : cadd a b = cadd b a.
Proof. apply complex_eq; simpl; ring. Qed.

Lemma cadd_assoc a b c : cadd a (cadd b c) = cadd (cadd a b) c.
Proof. apply complex_eq; simpl; ring. Qed.

Lemma cadd_czero_l a : cadd czero a = a.
Proof.
  apply complex_eq; simpl; unfold real_of_Z; simpl;
    change (Q2Qc (inject_Z 0)) with (Q2Qc 0); ring.
Qed.

Lemma cmul_comm a b : cmul a b = cmul b a.
Proof. apply complex_eq; simpl; ring. Qed.

Lemma crmul_cmul z x : crmul z x = cmul z (of_real x).
Proof. apply complex_eq; simpl; ring. Qed.

Lemma rcmul_cmul x z : rcmul x z = cmul (of_real x) z.
Proof. apply complex_eq; simpl; ring. Qed.

Lemma real_of_Z_pos_nonzero p : real_of_Z (Z.pos p) <> Q2Qc 0.
Proof.
  unfold real_of_Z. intros H. apply (f_equal this) in H. simpl in H.
  assert (E : (inject_Z (Z.pos p) == 0)%Q).
  { rewrite <- (Qred_correct (inject_Z (Z.pos p))). rewrite H. reflexivity. }
  unfold Qeq in E. simpl in E. lia.
Qed.

(** Scaling by [d] and then dividing by [o] is scaling by [d/o]. *)
Lemma scale_then_divide z d o :
  o <> Q2Qc 0 -> im d = Q2Qc 0 ->
  crdiv (crmul z (re d)) o = cmul (crdiv d o) z.
Proof.
  intros Ho Hd. apply complex_eq; simpl; rewrite Hd; field; exact Ho.
Qed.

End ComplexFacts.

(** ** Entry-wise sums *)

Section MatrixFacts.

Lemma zip_with_comm {A B} (f : A -> A -> B) (l k : list A) :
  (forall x y, f x y = f y x) -> zip_with f l k = zip_with f k l.
Proof.
  intros Hf. revert k. induction l as [|x l IH]; intros [|y k]; simpl; auto.
  rewrite Hf, IH. reflexivity.
Qed.

Lemma zip_with_assoc {A} (f : A -> A -> A) (l k m : list A) :
  (forall x y z, f x (f y z) = f (f x y) z) ->
  zip_with f l (zip_with f k m) = zip_with f (zip_with f l k) m.
Proof.
  intros Hf. revert k m.
  induction l as [|x l IH]; intros [|y k] [|z m]; simpl; auto.
  rewrite Hf, IH. reflexivity.
Qed.

Lemma madd_comm a b : madd a b = madd b a.
Proof.
  unfold madd. apply zip_with_comm. intros x y.
  apply zip_with_comm, cadd_comm.
Qed.

Lemma madd_assoc a b c : madd a (madd b c) = madd (madd a b) c.
Proof.
  unfold madd. apply zip_with_assoc. intros x y z.
  apply zip_with_assoc, cadd_assoc.
Qed.

Lemma madd_shape a b :
  map length a = map length b -> map length (madd a b) = map length a.
Proof.
  unfold madd. revert b.
  induction a as [|x a IH]; intros [|y b]; simpl; intros H; try discriminate; auto.
  injection H as Hxy Hab. f_equal; [|auto].
  rewrite length_zip_with. lia.
Qed.

Lemma mat_times_complex_shape (m : ZMatrix) c :
  map length (mat_times_complex m c) = map length m.
Proof.
  unfold mat_times_complex. rewrite map_map. apply map_ext.
  intros r. apply length_map.
Qed.

Lemma zeros_shape n : map length (repeat (repeat czero n) n) = repeat n n.
Proof.
  rewrite map_repeat, repeat_length. reflexivity.
Qed.

(** In the order of the loop or in the order of the formula, the sum is
    the same. *)
Lemma fold_madd a0 (l : list (list (list complex))) :
  fold_left madd l a0 = fold_right madd a0 l.
Proof.
  apply fold_symmetric.
  - intros x y z. apply madd_assoc.
  - intros y. apply madd_comm.
Qed.

Lemma fold_cadd a0 (l : list complex) :
  fold_left cadd l a0 = fold_right cadd a0 l.
Proof.
  apply fold_symmetric.
  - intros x y z. apply cadd_assoc.
  - intros y. apply cadd_comm.
Qed.

Lemma mat_times_complex_spec (m : ZMatrix) c :
  mat_times_complex m c = Spec.mscale c (Spec.D m).
Proof.
  unfold mat_times_complex, Spec.mscale, Spec.D.
  rewrite map_map. apply map_ext. intros r.
  rewrite map_map. apply map_ext. intros k. apply cmul_comm.
Qed.

End MatrixFacts.

(** ** Lists read by index *)

Section IndexFacts.

Lemma getitem_nat_lookup {A} (l : list A) k x :
  l !! k = Some x -> getitem_nat l k = Ok x.
Proof. unfold getitem_nat. intros ->. reflexivity. Qed.

Lemma getitem_nat_ge {A} (l : list A) k :
  (length l <= k)%nat -> getitem_nat l k = Raise IndexError.
Proof. unfold getitem_nat. intros H. rewrite lookup_ge_None_2; auto. Qed.

(** A loop over [range(len(l))] that reads [l[j]] and [k[j]] visits the
    pairs of [zip]. *)
Lemma zip_with_seq {A B C} (f : A -> B -> C) (l : list A) (k : list B) dA dB :
  length l = length k ->
  zip_with f l k = map (fun j => f (nth j l dA) (nth j k dB)) (seq 0 (length l)).
Proof.
  intros Hlen. apply list_eq. intros i.
  rewrite lookup_zip_with.
  change (map ?f ?l) with (f <$> l). rewrite list_lookup_fmap.
  destruct (decide (i < length l)%nat) as [Hi|Hi].
  - rewrite lookup_seq_lt by lia. simpl.
    rewrite !nth_lookup.
    destruct (lookup_lt_is_Some_2 l i Hi) as [x ->].
    destruct (lookup_lt_is_Some_2 k i ltac:(lia)) as [y ->].
    reflexivity.
  - rewrite lookup_seq_ge by lia.
    rewrite (lookup_ge_None_2 l) by lia. reflexivity.
Qed.

Lemma lookup_repeat_Some {A} (x y : A) n k :
  repeat x n !! k = Some y -> y = x /\ (k < n)%nat.
Proof.
  revert k. induction n as [|n IH]; intros [|k]; cbn; try discriminate.
  - intros [= <-]. split; [reflexivity | lia].
  - intros H. destruct (IH k H). split; [assumption | lia].
Qed.

Lemma lookup_repeat_lt {A} (x : A) n k :
  (k < n)%nat -> repeat x n !! k = Some x.
Proof.
  revert k. induction n as [|n IH]; intros [|k] H; cbn; try lia; auto.
  apply IH. lia.
Qed.

Lemma py_index_lt n j k : py_index n j = Some k -> (k < n)%nat.
Proof.
  unfold py_index.
  destruct ((0 <=? j) && (j <? Z.of_nat n)) eqn:E1.
  - intros [= <-]. apply andb_true_iff in E1 as [H1 H2]. lia.
  - destruct ((- Z.of_nat n <=? j) && (j <? 0)) eqn:E2; [|discriminate].
    intros [= <-]. apply andb_true_iff in E2 as [H1 H2]. lia.
Qed.

Lemma py_index_nat n (k : nat) : (k < n)%nat -> py_index n (Z.of_nat k) = Some k.
Proof.
  intros H. unfold py_index.
  replace ((0 <=? Z.of_nat k) && (Z.of_nat k <? Z.of_nat n)) with true.
  - rewrite Nat2Z.id. reflexivity.
  - symmetry. apply andb_true_iff. split; lia.
Qed.

(** A negative index denotes the same place as the index counted from
    the start. *)
Lemma py_index_wrap n j :
  - Z.of_nat n <= j < 0 -> py_index n j = py_index n (Z.of_nat n + j).
Proof.
  intros H. unfold py_index.
  replace ((0 <=? j) && (j <? Z.of_nat n)) with false
    by (symmetry; apply andb_false_iff; left; lia).
  replace ((- Z.of_nat n <=? j) && (j <? 0)) with true
    by (symmetry; apply andb_true_iff; split; lia).
  replace ((0 <=? Z.of_nat n + j) && (Z.of_nat n + j <? Z.of_nat n)) with true
    by (symmetry; apply andb_true_iff; split; lia).
  reflexivity.
Qed.

Lemma py_index_wrap_Some n j :
  - Z.of_nat n <= j < 0 -> py_index n j = Some (Z.to_nat (Z.of_nat n + j)).
Proof.
  intros H. rewrite py_index_wrap by exact H.
  rewrite <- (py_index_nat n (Z.to_nat (Z.of_nat n + j))) by lia.
  f_equal. lia.
Qed.

Lemma py_index_out_of_range n j :
  j < - Z.of_nat n \/ Z.of_nat n <= j -> py_index n j = None.
Proof.
  intros H. unfold py_index.
  replace ((0 <=? j) && (j <? Z.of_nat n)) with false
    by (symmetry; apply andb_false_iff; lia).
  replace ((- Z.of_nat n <=? j) && (j <? 0)) with false
    by (symmetry; apply andb_false_iff; lia).
  reflexivity.
Qed.

Lemma py_getitem_index {A} (l : list A) j k x :
  py_index (length l) j = Some k -> l !! k = Some x -> py_getitem l j = Ok x.
Proof. unfold py_getitem. intros -> ->. reflexivity. Qed.

Lemma py_getitem_out_of_range {A} (l : list A) j :
  py_index (length l) j = None -> py_getitem l j = Raise IndexError.
Proof. unfold py_getitem. intros ->. reflexivity. Qed.

Lemma ndarray_eq_None_false a b : ndarray_eq_None a = Ok b -> b = false.
Proof.
  unfold ndarray_eq_None.
  destruct (arr_size a) as [|[|n]]; intros [= <-] || discriminate; reflexivity.
Qed.

End IndexFacts.

(** ** The loops of [get_IRR_degeneracies] *)

Section DegeneracyLoops.

Variable g : SageGroup.
Hypothesis Hvalid : valid_table g.

Lemma degeneracy_term_valid i j :
  (i < Spec.numIRRs g)%nat -> (j < Spec.numIRRs g)%nat ->
  degeneracy_term (order g) (character_table g) (conjugacy_classes g) i j
  = Ok (code_term g i j).
Proof.
  intros Hi Hj. unfold degeneracy_term, code_term, Spec.numIRRs in *.
  destruct Hvalid as [Hc Hcol _ Hne].
  destruct (lookup_lt_is_Some_2 (conjugacy_classes g) j ltac:(lia)) as [cls Hcls].
  destruct (lookup_lt_is_Some_2 (character_table g) i Hi) as [row Hrow].
  assert (Hlen : length row = length (character_table g)).
  { eapply (proj1 (Forall_lookup _ _) Hcol); eauto. }
  destruct (lookup_lt_is_Some_2 row j ltac:(lia)) as [chi Hchi].
  assert (Hcne : cls <> []).
  { eapply (proj1 (Forall_lookup _ _) Hne); eauto. }
  destruct cls as [|rep cls']; [congruence|].
  rewrite (getitem_nat_lookup _ _ _ Hcls). simpl.
  rewrite (getitem_nat_lookup _ _ _ Hrow). simpl.
  rewrite (getitem_nat_lookup _ _ _ Hchi). simpl.
  rewrite !nth_lookup, Hcls, Hrow. simpl. rewrite Hchi. reflexivity.
Qed.

Lemma degeneracy_total_fold o t m i (f : nat -> complex) js total :
  (forall j, In j js -> degeneracy_term o t m i j = Ok (f j)) ->
  degeneracy_total o t m i js total = Ok (fold_left cadd (map f js) total).
Proof.
  revert total. induction js as [|j js IH]; intros total H; simpl; [reflexivity|].
  rewrite (H j) by (left; reflexivity). simpl.
  apply IH. intros j' Hj'. apply H. right. exact Hj'.
Qed.

Lemma code_terms_spec i :
  (i < Spec.numIRRs g)%nat ->
  map (code_term g i) (seq 0 (Spec.numIRRs g))
  = zip_with
      (fun cls chi =>
         cmul (cmul (of_real (real_of_Z (Z.of_nat (length cls)) / Spec.group_order g)%Qc)
                    (conj chi))
              (of_Z (np_trace (hd [] cls))))
      (conjugacy_classes g) (nth i (character_table g) []).
Proof.
  intros Hi. destruct Hvalid as [Hc Hcol _ _]. unfold Spec.numIRRs in *.
  assert (Hlen : length (nth i (character_table g) []) = length (character_table g)).
  { destruct (lookup_lt_is_Some_2 (character_table g) i Hi) as [row Hrow].
    rewrite nth_lookup, Hrow. simpl.
    eapply (proj1 (Forall_lookup _ _) Hcol); eauto. }
  rewrite (zip_with_seq _ _ _ [] czero) by (rewrite Hlen; exact Hc).
  match goal with
  | |- map _ (seq 0 ?a) = map _ (seq 0 ?b) => replace b with a by (symmetry; exact Hc)
  end.
  apply map_ext. intros j. unfold code_term. cbv zeta.
  rewrite crmul_cmul, rcmul_cmul. reflexivity.
Qed.

(** The two loops compute the degeneracy of the specification. *)
Lemma degeneracy_total_spec i :
  (i < Spec.numIRRs g)%nat ->
  exists total,
    degeneracy_total (order g) (character_table g) (conjugacy_classes g) i
                     (seq 0 (Spec.numIRRs g)) czero = Ok total /\
    py_round (re total) = Spec.degeneracy g i.
Proof.
  intros Hi. eexists. split.
  - apply (degeneracy_total_fold _ _ _ _ (code_term g i)).
    intros j Hj. apply degeneracy_term_valid; [exact Hi|].
    apply in_seq in Hj. lia.
  - rewrite fold_cadd, code_terms_spec by exact Hi. reflexivity.
Qed.

End DegeneracyLoops.

(** ** The loops of [get_projection_operator] *)

Section ProjectionLoops.

Lemma promote_complex d : promote d complex128 = complex128.
Proof. destruct d; reflexivity. Qed.

Lemma sum_dtype_app {A} d (l k : list A) :
  sum_dtype (sum_dtype d l) k = sum_dtype d (l ++ k).
Proof. destruct l, k; reflexivity. Qed.

Lemma fold_madd_shape shape (ts : list (list (list complex))) a :
  Forall (fun t => map length t = shape) ts ->
  map length a = shape ->
  map length (fold_left madd ts a) = shape.
Proof.
  revert a. induction ts as [|t ts IH]; intros a Hts Ha; simpl; [exact Ha|].
  inversion Hts as [|? ? Ht Hts']; subst.
  apply IH; [exact Hts'|]. rewrite madd_shape; congruence.
Qed.

Lemma projection_inner_fold c (mats : list ZMatrix) r shape :
  map length (arr_rows r) = shape ->
  Forall (fun m : ZMatrix => map length m = shape) mats ->
  projection_inner c mats r
  = Ok (mkarray (sum_dtype (arr_dtype r) mats)
                (fold_left madd (map (fun m => mat_times_complex m c) mats) (arr_rows r))).
Proof.
  revert r. induction mats as [|m mats IH]; intros r Hr Hm; simpl.
  - destruct r; reflexivity.
  - inversion Hm as [|? ? Hm1 Hm2]; subst.
    unfold same_shape. rewrite bool_decide_eq_true_2 by congruence.
    rewrite IH; simpl; [| rewrite madd_shape; rewrite ?mat_times_complex_shape; congruence
                        | exact Hm2 ].
    rewrite promote_complex. destruct mats; reflexivity.
Qed.

Lemma projection_outer_fold characters (matricies : list (list ZMatrix)) shape :
  forall cs ms k r,
    drop k characters = cs -> drop k matricies = ms ->
    (length cs <= length ms)%nat ->
    Forall (Forall (fun m : ZMatrix => map length m = shape)) ms ->
    map length (arr_rows r) = shape ->
    let terms := concat (zip_with
                   (fun cls chi => map (fun m => mat_times_complex m chi) cls) ms cs) in
    projection_outer characters matricies (seq k (length cs)) r
    = Ok (mkarray (sum_dtype (arr_dtype r) terms) (fold_left madd terms (arr_rows r))).
Proof.
  induction cs as [|c cs IH]; intros ms k r Hcs Hms Hlen Hshape Hr terms.
  - subst terms. destruct ms; simpl; destruct r; reflexivity.
  - destruct ms as [|cls ms]; [simpl in Hlen; lia|].
    inversion Hshape as [|? ? Hcls Hrest]; subst terms; simpl.
    assert (Hk1 : matricies !! k = Some cls).
    { rewrite <- (Nat.add_0_r k), <- lookup_drop, Hms. reflexivity. }
    assert (Hk2 : characters !! k = Some c).
    { rewrite <- (Nat.add_0_r k), <- lookup_drop, Hcs. reflexivity. }
    rewrite (getitem_nat_lookup _ _ _ Hk1). simpl.
    rewrite (getitem_nat_lookup _ _ _ Hk2). simpl.
    rewrite (projection_inner_fold c cls r shape Hr Hcls). simpl.
    rewrite (IH ms (S k)); simpl.
    + rewrite fold_left_app, <- sum_dtype_app.
      unfold sum_dtype at 2. destruct cls; reflexivity.
    + rewrite <- (Nat.add_1_r k), <- drop_drop, Hcs. reflexivity.
    + rewrite <- (Nat.add_1_r k), <- drop_drop, Hms. reflexivity.
    + simpl in Hlen. lia.
    + exact Hrest.
    + apply fold_madd_shape; [|exact Hr].
      apply Forall_forall. intros t Ht. apply in_map_iff in Ht as (m & <- & Hm).
      rewrite mat_times_complex_shape.
      eapply (proj1 (Forall_forall _ _) Hcls). exact Hm.
Qed.

End ProjectionLoops.

Section ProjectionValue.

Variables (g : SageGroup) (n : nat).
Hypothesis Htable : valid_table g.
Hypothesis Hmatrices : valid_matrices n g.

Lemma row_length i row :
  character_table g !! i = Some row -> length row = Spec.numIRRs g.
Proof.
  intros Hrow. destruct Htable as [_ Hcol _ _].
  eapply (proj1 (Forall_lookup _ _) Hcol); eauto.
Qed.

Lemma dimension_integer i :
  (i < Spec.numIRRs g)%nat -> exists d : Z, Spec.dimension g i = of_Z d.
Proof.
  intros Hi. destruct Hmatrices as [_ Hdim].
  destruct (lookup_lt_is_Some_2 (character_table g) i Hi) as [row Hrow].
  unfold Spec.dimension. rewrite (nth_lookup (character_table g)), Hrow. simpl.
  eapply (proj1 (Forall_lookup _ _) Hdim); eauto.
Qed.

(** The terms of the group sum of IRR [i], as the code adds them. *)
Lemma projection_terms_spec (row : list complex) :
  concat (zip_with (fun cls chi => map (fun m => mat_times_complex m chi) cls)
                   (conjugacy_classes g) row)
  = concat (zip_with (fun cls chi => map (fun m => Spec.mscale chi (Spec.D m)) cls)
                     (conjugacy_classes g) row).
Proof.
  f_equal. apply zip_with_ext; try reflexivity.
  intros cls chi. apply map_ext. intros m. apply mat_times_complex_spec.
Qed.

Lemma projection_terms_nonempty (row : list complex) :
  length row = Spec.numIRRs g ->
  concat (zip_with (fun cls chi => map (fun m => mat_times_complex m chi) cls)
                   (conjugacy_classes g) row) <> [].
Proof.
  intros Hrow. destruct Htable as [Hc _ Hne Hcls]. unfold Spec.numIRRs in *.
  destruct (conjugacy_classes g) as [|cls cs] eqn:E.
  - destruct (character_table g); [congruence | discriminate].
  - destruct row as [|chi row].
    + destruct (character_table g); [congruence | discriminate].
    + inversion Hcls as [|? ? Hcls1 _]; subst.
      destruct cls; [congruence|]. discriminate.
Qed.

Lemma terms_shape (row : list complex) :
  Forall (fun t : list (list complex) => map length t = repeat n n)
    (concat (zip_with (fun cls chi => map (fun m => mat_times_complex m chi) cls)
                      (conjugacy_classes g) row)).
Proof.
  destruct Hmatrices as [Hshape _]. revert row.
  induction Hshape as [|cls cs Hcls _ IH]; intros [|chi row]; cbn; try constructor.
  apply Forall_app. split; [|apply IH].
  apply Forall_forall. intros t Ht. apply in_map_iff in Ht as (m & <- & Hm).
  rewrite mat_times_complex_shape.
  eapply (proj1 (Forall_forall _ _) Hcls). exact Hm.
Qed.

(** The loops of [get_projection_operator] and the final scaling give
    the projection operator of the specification, as a complex array. *)
Lemma projection_code_spec i row :
  character_table g !! i = Some row ->
  exists result,
    projection_outer row (conjugacy_classes g) (seq 0 (length row)) (np_zeros n n)
    = Ok result /\
    arr_over_float (arr_times_float result (re (Spec.dimension g i))) (Spec.group_order g)
    = mkarray complex128 (Spec.projection g n i) /\
    map length (arr_rows result) = repeat n n.
Proof.
  intros Hrow.
  assert (Hi : (i < Spec.numIRRs g)%nat) by (eapply lookup_lt_Some; eauto).
  pose proof (row_length i row Hrow) as Hlen.
  destruct Hmatrices as [Hshape _].
  eexists. split.
  - apply (projection_outer_fold row (conjugacy_classes g) (repeat n n)
             row (conjugacy_classes g) 0%nat); try reflexivity.
    + destruct Htable as [Hc _ _ _]. unfold Spec.numIRRs in Hlen. lia.
    + exact Hshape.
    + apply zeros_shape.
  - split.
    2:{ cbn [arr_rows np_zeros]. apply fold_madd_shape; [|apply zeros_shape].
        apply terms_shape. }
    unfold arr_over_float, arr_times_float. cbn [arr_dtype arr_rows np_zeros].
    pose proof (projection_terms_nonempty row Hlen) as Hne.
    f_equal.
    + destruct (concat _); [congruence | reflexivity].
    + unfold Spec.projection, Spec.mscale, Spec.msum.
      rewrite (nth_lookup (character_table g)), Hrow. cbn [default].
      rewrite fold_madd, projection_terms_spec, map_map.
      apply map_ext. intros r. rewrite map_map. apply map_ext. intros z.
      destruct (dimension_integer i Hi) as [d Hd].
      apply scale_then_divide.
      * apply real_of_Z_pos_nonzero.
      * rewrite Hd. reflexivity.
Qed.

(** The projection operator of the specification is [n]-by-[n]. *)
Lemma projection_shape i :
  (i < Spec.numIRRs g)%nat ->
  map length (Spec.projection g n i) = repeat n n.
Proof.
  intros Hi.
  destruct (lookup_lt_is_Some_2 (character_table g) i Hi) as [row Hrow].
  destruct (projection_code_spec i row Hrow) as (result & _ & Earray & Hshape).
  apply (f_equal arr_rows) in Earray. cbn [arr_rows] in Earray.
  rewrite <- Earray. unfold arr_over_float, arr_times_float. cbn [arr_rows].
  rewrite !map_map. rewrite <- Hshape.
  apply map_ext. intros r. rewrite !length_map. reflexivity.
Qed.

End ProjectionValue.

Lemma arr_size_first_row a r rows :
  arr_rows a = r :: rows -> (length r <= arr_size a)%nat.
Proof. unfold arr_size. intros ->. cbn. lia. Qed.

(** An array of two entries or more has no truth value. *)
Lemma ndarray_eq_None_square a n :
  map length (arr_rows a) = repeat n n -> (2 <= n)%nat ->
  ndarray_eq_None a = Raise ValueError.
Proof.
  intros Hshape Hn. unfold ndarray_eq_None.
  destruct (arr_rows a) as [|r rows] eqn:E.
  - destruct n; [lia | discriminate].
  - pose proof (arr_size_first_row a r rows E) as Hsize.
    destruct n as [|n]; [lia|]. cbn in Hshape. injection Hshape as Hr _.
    destruct (arr_size a) as [|[|k]]; try lia. reflexivity.
Qed.

(** ** Running the methods from a good state *)

Lemma frame_refl s : frame s s.
Proof.
  constructor; auto. exists []. rewrite app_nil_r. reflexivity.
Qed.

Lemma frame_trans s1 s2 s3 : frame s1 s2 -> frame s2 s3 -> frame s1 s3.
Proof.
  intros [A1 A2 [h1 A3] A4 A5 A6 A7 A8 A9] [B1 B2 [h2 B3] B4 B5 B6 B7 B8 B9].
  constructor; try congruence; auto.
  exists (h1 ++ h2). rewrite B3, A3, app_assoc. reflexivity.
Qed.

Lemma same_arrays_refl s : same_arrays s s.
Proof. repeat split. Qed.

Lemma same_arrays_trans s1 s2 s3 :
  same_arrays s1 s2 -> same_arrays s2 s3 -> same_arrays s1 s3.
Proof. intros (A1 & A2 & A3) (B1 & B2 & B3). repeat split; congruence. Qed.

Lemma cached_None {A} (v : A) : cached None v.
Proof. left. reflexivity. Qed.

Lemma cached_Some {A} (v : A) : cached (Some v) v.
Proof. right. reflexivity. Qed.

Lemma cached_inv {A} (v w : A) : cached (Some w) v -> w = v.
Proof. intros [H|H]; congruence. Qed.

Create HintDb netirr.
#[local] Hint Resolve frame_refl same_arrays_refl cached_None cached_Some : netirr.

Arguments get_automorphism_group : simpl never.
Arguments get_character_table : simpl never.
Arguments get_conjugacy_classes : simpl never.
Arguments get_conjugacy_classes_matrices : simpl never.
Arguments get_IRR_degeneracies : simpl never.
Arguments get_projection_operator : simpl never.
Arguments get_transformation_operator : simpl never.
Arguments transformation_step : simpl never.
Arguments collect_singular_vectors : simpl never.

Lemma bind_ok {A B} (m : M A) (f : A -> M B) s a s1 :
  m s = (Ok a, s1) -> bind m f s = f a s1.
Proof. unfold bind. intros ->. reflexivity. Qed.

Lemma bind_raise {A B} (m : M A) (f : A -> M B) s e s1 :
  m s = (Raise e, s1) -> bind m f s = (Raise e, s1).
Proof. unfold bind. intros ->. reflexivity. Qed.

Lemma bind_gets {A B} (p : NetworkIRR -> A) (f : A -> M B) s :
  bind (gets p) f s = f (p s) s.
Proof. reflexivity. Qed.

Lemma bind_modify {B} (u : NetworkIRR -> NetworkIRR) (f : unit -> M B) s :
  bind (modify u) f s = f tt (u s).
Proof. reflexivity. Qed.

Lemma bind_lift_ok {A B} (a : A) (f : A -> M B) s :
  bind (lift (Ok a)) f s = f a s.
Proof. reflexivity. Qed.

Lemma bind_lift_raise {A B} e (f : A -> M B) s :
  bind (lift (Raise e)) f s = (Raise e, s).
Proof. reflexivity. Qed.

Lemma bind_ret {A B} (a : A) (f : A -> M B) s :
  bind (ret a) f s = f a s.
Proof. reflexivity. Qed.

Lemma bind_alloc {B} (a : ndarray) (f : nat -> M B) s :
  bind (alloc a) f s = f (length (heap s)) (set_heap (heap s ++ [a]) s).
Proof. reflexivity. Qed.

Lemma bind_deref {B} l a (f : ndarray -> M B) s :
  heap s !! l = Some a -> bind (deref l) f s = f a s.
Proof. unfold bind, deref. intros ->. reflexivity. Qed.

Lemma bind_assoc {A B C} (m : M A) (f : A -> M B) (k : B -> M C) s :
  bind (bind m f) k s = bind m (fun x => bind (f x) k) s.
Proof. unfold bind. destruct (m s) as [[a|e] s1]; reflexivity. Qed.

(** One step of a method: the call whose outcome is [E]. *)
Ltac run E := rewrite ?bind_assoc; rewrite (bind_ok _ _ _ _ _ E); cbv beta.
Ltac step :=
  rewrite ?bind_assoc;
  first [ rewrite bind_gets | rewrite bind_modify | rewrite bind_lift_ok
        | rewrite bind_ret | rewrite bind_alloc ]; cbv beta.

Ltac unfold_monad :=
  unfold bind, gets, ret, modify, lift, raise, deref; cbn -[Spec.degeneracies].

(** Closes the record goals ([good], [frame], [same_arrays]) about a
    state given by its fields. *)
Ltac solve_state :=
  repeat match goal with
         | |- _ /\ _ => split
         | |- oracle_good _ _ _ => first [assumption | constructor]
         | |- good _ _ _ => first [assumption | constructor]
         | |- frame _ _ => first [assumption | apply frame_refl | constructor]
         | |- same_arrays _ _ => first [assumption | unfold same_arrays]
         end;
  cbn -[Spec.degeneracies] in *;
  try solve [ reflexivity | assumption | discriminate | congruence
            | auto with netirr
            | exists []; rewrite app_nil_r; reflexivity
            | eauto 10
            | intros;
              repeat match goal with
                     | F : forall v, ?x = Some v -> _, H : ?x = Some _ |- _ => apply F in H
                     end;
              congruence ].

Section GoodRuns.

Variable ext : External.
Variable g : SageGroup.

Lemma get_automorphism_group_run s :
  oracle_good ext g s ->
  exists s', get_automorphism_group ext s = (Ok g, s') /\
             oracle_good ext g s' /\ frame s s' /\ same_arrays s s' /\
             _IRR_degeneracies s' = _IRR_degeneracies s /\
             _group s' = Some g.
Proof.
  intros [Hadj Hg Ht Hc Hm]. destruct s; cbn in *.
  destruct Hadj as (l & a & orb & -> & Hl & Hsage).
  unfold get_automorphism_group. unfold_monad.
  destruct Hg as [-> | ->]; cbn.
  - rewrite Hl. cbn. rewrite Hsage. cbn.
    eexists. split; [reflexivity|]. solve_state.
  - eexists. split; [reflexivity|]. solve_state.
Qed.

Lemma get_character_table_run s :
  oracle_good ext g s ->
  exists s', get_character_table ext s = (Ok (character_table g), s') /\
             oracle_good ext g s' /\ frame s s' /\ same_arrays s s' /\
             _IRR_degeneracies s' = _IRR_degeneracies s /\
             _character_table s' = Some (character_table g).
Proof.
  intros Hgood. unfold get_character_table. unfold_monad.
  destruct (_character_table s) as [t|] eqn:Et.
  - pose proof (good_table _ _ _ Hgood) as Ht. rewrite Et in Ht.
    apply cached_inv in Ht. subst t.
    exists s. split; [reflexivity|]. solve_state.
  - destruct (get_automorphism_group_run s Hgood)
      as (s1 & -> & [Hadj Hg Ht Hc Hm] & [F1 F2 F3 F4 F5 F6 F7 F8 F9]
          & (A1 & A2 & A3) & D1 & G1).
    eexists. split; [reflexivity|]. solve_state.
Qed.

Lemma get_conjugacy_classes_run s :
  oracle_good ext g s ->
  exists s', get_conjugacy_classes ext s = (Ok (conjugacy_classes g), s') /\
             oracle_good ext g s' /\ frame s s' /\ same_arrays s s' /\
             _IRR_degeneracies s' = _IRR_degeneracies s /\
             _conjugacy_classes s' = Some (conjugacy_classes g).
Proof.
  intros Hgood. unfold get_conjugacy_classes. unfold_monad.
  destruct (_conjugacy_classes s) as [c|] eqn:Ec.
  - pose proof (good_classes _ _ _ Hgood) as Hc. rewrite Ec in Hc.
    apply cached_inv in Hc. subst c.
    exists s. split; [reflexivity|]. solve_state.
  - destruct (_group s) as [g0|] eqn:Eg.
    + pose proof (good_group _ _ _ Hgood) as Hg. rewrite Eg in Hg.
      apply cached_inv in Hg. subst g0.
      destruct Hgood as [Hadj Hg Ht Hc Hm].
      eexists. split; [reflexivity|]. solve_state.
    + destruct (get_automorphism_group_run s Hgood)
        as (s1 & -> & [Hadj Hg Ht Hc Hm] & [F1 F2 F3 F4 F5 F6 F7 F8 F9]
            & (A1 & A2 & A3) & D1 & G1).
      eexists. split; [reflexivity|]. solve_state.
Qed.

Lemma get_conjugacy_classes_matrices_run s :
  oracle_good ext g s ->
  exists s', get_conjugacy_classes_matrices ext s = (Ok (conjugacy_classes g), s') /\
             oracle_good ext g s' /\ frame s s' /\ same_arrays s s' /\
             _IRR_degeneracies s' = _IRR_degeneracies s.
Proof.
  intros Hgood. unfold get_conjugacy_classes_matrices. unfold_monad.
  assert (H1 : exists s1,
             (match _conjugacy_classes s with
              | Some c => ret c
              | None => get_conjugacy_classes ext
              end) s = (Ok (conjugacy_classes g), s1) /\
             oracle_good ext g s1 /\ frame s s1 /\ same_arrays s s1 /\
             _IRR_degeneracies s1 = _IRR_degeneracies s).
  { destruct (_conjugacy_classes s) as [c|] eqn:Ec.
    - pose proof (good_classes _ _ _ Hgood) as Hc. rewrite Ec in Hc.
      apply cached_inv in Hc. subst c.
      exists s. split; [reflexivity|]. solve_state.
    - destruct (get_conjugacy_classes_run s Hgood) as (s1 & E & G1 & F1 & A1 & D1 & _).
      exists s1. auto. }
  destruct H1 as (s1 & E & Hgood1 & F1 & (A1 & A2 & A3) & D1).
  unfold ret in E. rewrite E. clear E.
  destruct (_conjugacy_classes_matrices s1) as [m|] eqn:Em.
  - pose proof (good_matrices _ _ _ Hgood1) as Hm. rewrite Em in Hm.
    apply cached_inv in Hm. subst m.
    exists s1. split; [reflexivity|]. solve_state.
  - destruct Hgood1 as [Hadj Hg Ht Hc Hm].
    destruct F1 as [F1 F2 F3 F4 F5 F6 F7 F8 F9].
    eexists. split; [reflexivity|]. solve_state.
Qed.

Hypothesis Htable : valid_table g.

(** The number of IRRs the code uses, the length of row 0 of the table,
    is the number of rows. *)
Lemma get_numIRRs_run s :
  oracle_good ext g s ->
  exists s', get_numIRRs ext s = (Ok (Spec.numIRRs g), s') /\
             oracle_good ext g s' /\ frame s s' /\ same_arrays s s'.
Proof.
  intros Hgood. unfold get_numIRRs.
  destruct (get_character_table_run s Hgood) as (s1 & E1 & G1 & F1 & A1 & _).
  run E1.
  destruct (character_table g) as [|row t] eqn:E.
  - destruct Htable as [_ _ Hne _]. congruence.
  - cbn [getitem_nat lookup list_lookup]. step.
    exists s1. split; [|auto].
    unfold ret. f_equal. f_equal.
    apply (row_length g Htable 0%nat). rewrite E. reflexivity.
Qed.

Lemma first_row :
  exists row, getitem_nat (character_table g) 0 = Ok row /\
              length row = Spec.numIRRs g.
Proof.
  destruct (character_table g) as [|row t] eqn:E.
  - destruct Htable as [_ _ Hne _]. congruence.
  - exists row. split; [reflexivity|].
    apply (row_length g Htable 0%nat). rewrite E. reflexivity.
Qed.

Lemma degeneracies_loop_run ks : forall acc s,
  (forall i, In i ks -> (i < Spec.numIRRs g)%nat) ->
  _IRR_degeneracies s = Some acc ->
  degeneracies_loop (order g) (character_table g) (conjugacy_classes g)
                    (Spec.numIRRs g) ks s
  = (Ok tt, set_IRR_degeneracies (acc ++ map (Spec.degeneracy g) ks) s).
Proof.
  induction ks as [|i ks IH]; intros acc s Hks Hacc; cbn [degeneracies_loop map].
  - unfold ret. rewrite app_nil_r. destruct s; cbn in *. subst. reflexivity.
  - destruct (degeneracy_total_spec g Htable i) as (total & Etotal & Eround).
    { apply Hks. left. reflexivity. }
    unfold bind at 1, lift. rewrite Etotal. cbv beta iota.
    unfold bind at 1, append_degeneracy. unfold bind at 1, gets. cbv beta iota.
    rewrite Hacc. unfold modify. cbv beta iota. rewrite Eround.
    rewrite (IH (acc ++ [Spec.degeneracy g i])).
    + rewrite <- app_assoc. reflexivity.
    + intros j Hj. apply Hks. right. exact Hj.
    + reflexivity.
Qed.

Lemma get_IRR_degeneracies_run s :
  good ext g s ->
  exists s', get_IRR_degeneracies ext s = (Ok (Spec.degeneracies g), s') /\
             good ext g s' /\ frame s s' /\ same_arrays s s' /\
             _IRR_degeneracies s' = Some (Spec.degeneracies g).
Proof.
  intros Hgood0. pose proof Hgood0 as [Hgood Hdeg Hslots].
  unfold get_IRR_degeneracies. step.
  destruct (_IRR_degeneracies s) as [d|] eqn:Ed.
  - apply cached_inv in Hdeg. subst d.
    exists s. split; [reflexivity|]. solve_state.
  - destruct (get_character_table_run s Hgood)
      as (s1 & E1 & G1 & F1 & (A1 & A1' & A1'') & D1 & _).
    run E1.
    destruct first_row as (row & Erow & Hrow). rewrite Erow. step.
    destruct (get_automorphism_group_run s1 G1)
      as (s2 & E2 & G2 & F2 & (A2 & A2' & A2'') & D2 & _).
    run E2. step.
    assert (G3 : oracle_good ext g (set_IRR_degeneracies [] s2)).
    { destruct G2. solve_state. }
    destruct (get_conjugacy_classes_matrices_run _ G3)
      as (s4 & E4 & G4 & F4 & (A4 & A4' & A4'') & D4).
    run E4. rewrite Hrow.
    rewrite (bind_ok _ _ _ _ _ (degeneracies_loop_run (seq 0 (Spec.numIRRs g)) [] s4
               ltac:(intros i Hi; apply in_seq in Hi; lia) D4)).
    cbv beta. step. cbn [_IRR_degeneracies set_IRR_degeneracies app].
    eexists. split; [reflexivity|].
    cbn in A4, A4', A4''.
    assert (F : frame s s4).
    { apply (frame_trans _ s1); [exact F1|].
      apply (frame_trans _ s2); [exact F2|].
      destruct F4 as [B1 B2 B3 B4 B5 B6 B7 B8 B9]. destruct F2.
      constructor; cbn in *; auto.
      intros v Hv. rewrite D2, D1, Ed in Hv. discriminate. }
    destruct F as [B1 B2 B3 B4 B5 B6 B7 B8 B9]. destruct G4.
    split; [|split; [|split]].
    + constructor; [solve_state | apply cached_Some |].
      cbn. intros v Hv. apply Hslots. congruence.
    + constructor; cbn; auto. intros v Hv. congruence.
    + repeat split; cbn; congruence.
    + reflexivity.
Qed.

(** The first three statements of [get_projection_operator]: the
    degeneracies, and the list of slots if it is not there yet. *)
Lemma projection_prefix {B} (k : M B) s :
  good ext g s ->
  exists s1 v1,
    bind (get_IRR_degeneracies ext) (fun degen =>
      bind (gets _projection_operators) (fun o =>
        bind (match o with
              | None => modify (set_projection_operators (repeat None (length degen)))
              | Some _ => ret tt
              end) (fun _ => k))) s = k s1 /\
    good ext g s1 /\ frame s s1 /\ heap s1 = heap s /\
    _transformation_operator s1 = _transformation_operator s /\
    _IRR_degeneracies s1 = Some (Spec.degeneracies g) /\
    _projection_operators s1 = Some v1 /\
    v1 = default (repeat None (Spec.numIRRs g)) (_projection_operators s) /\
    length v1 = Spec.numIRRs g /\
    (forall i, slot s1 i = slot s i).
Proof.
  intros Hgood.
  destruct (get_IRR_degeneracies_run s Hgood)
    as (s0 & E0 & G0 & F0 & (A0 & A0' & A0'') & D0).
  run E0. step.
  assert (Hlen : length (Spec.degeneracies g) = Spec.numIRRs g).
  { unfold Spec.degeneracies. rewrite length_map, length_seq. reflexivity. }
  destruct (_projection_operators s0) as [v|] eqn:Ev.
  - step. exists s0, v. split; [reflexivity|].
    rewrite <- A0'. cbn [default].
    split; [exact G0|]. split; [exact F0|]. split; [exact A0|].
    split; [exact A0''|]. split; [exact D0|]. split; [exact Ev|].
    split; [reflexivity|]. split.
    + eapply good_slots; eauto.
    + intros i. unfold slot. rewrite Ev, <- A0'. reflexivity.
  - step. rewrite Hlen.
    exists (set_projection_operators (repeat None (Spec.numIRRs g)) s0),
           (repeat None (Spec.numIRRs g)).
    split; [reflexivity|].
    rewrite <- A0'. cbn [default].
    destruct G0 as [[Hadj Hg Ht Hc Hm] Hd Hs].
    destruct F0 as [F1 F2 F3 F4 F5 F6 F7 F8 F9].
    split; [|split; [|repeat split; cbn; auto]].
    + constructor; [constructor; cbn; auto | cbn; auto |].
      cbn. intros v Hv. injection Hv as <-. apply repeat_length.
    + constructor; cbn; auto.
      intros i l Hl. apply F9 in Hl. unfold slot in Hl. rewrite Ev in Hl.
      cbn in Hl. rewrite lookup_nil in Hl. discriminate.
    + apply repeat_length.
    + intros i. unfold slot. cbn. rewrite <- A0'. cbn.
      rewrite lookup_nil. cbn.
      destruct (repeat None (Spec.numIRRs g) !! i) as [o|] eqn:E; cbn; [|reflexivity].
      apply lookup_repeat_Some in E as [-> _]. reflexivity.
Qed.

Lemma projection_slot_is_None_run l s :
  projection_slot_is_None (Some l) s
  = (match heap s !! l with
     | Some a => ndarray_eq_None a
     | None => Raise ValueError
     end, s).
Proof.
  unfold projection_slot_is_None, bind, deref, lift.
  destruct (heap s !! l); reflexivity.
Qed.

Lemma sage_entry_dimension j k :
  py_index (Spec.numIRRs g) j = Some k ->
  exists row, character_table g !! k = Some row /\
              py_getitem (character_table g) j = Ok row /\
              sage_entry (character_table g) j 0 = Ok (Spec.dimension g k).
Proof.
  intros Hj. pose proof (py_index_lt _ _ _ Hj) as Hk.
  destruct (lookup_lt_is_Some_2 (character_table g) k Hk) as [row Hrow].
  pose proof (row_length g Htable k row Hrow) as Hlen.
  exists row. split; [exact Hrow|].
  assert (E : py_getitem (character_table g) j = Ok row)
    by (eapply py_getitem_index; eauto).
  split; [exact E|].
  unfold sage_entry. rewrite E. cbn [obind].
  destruct row as [|x row]; [cbn in Hlen; lia|].
  unfold Spec.dimension. rewrite (nth_lookup (character_table g)), Hrow.
  reflexivity.
Qed.

Lemma py_float_integer (d : Z) : py_float (of_Z d) = Ok (re (of_Z d)).
Proof. reflexivity. Qed.

(** What [get_projection_operator j] does, by the place [j] denotes
    and by what that slot holds. *)
Lemma get_projection_operator_run s j :
  good ext g s -> valid_matrices (_nnodes s) g ->
  exists r s',
    get_projection_operator ext j s = (r, s') /\
    good ext g s' /\ frame s s' /\
    _transformation_operator s' = _transformation_operator s /\
    _IRR_degeneracies s' = Some (Spec.degeneracies g) /\
    let v := default (repeat None (Spec.numIRRs g)) (_projection_operators s) in
    match py_index (Spec.numIRRs g) j with
    | None =>
        r = Raise IndexError /\ heap s' = heap s /\ _projection_operators s' = Some v
    | Some k =>
        match slot s k with
        | None =>
            r = Ok (length (heap s)) /\
            heap s' = heap s ++ [Spec.projection_array g (_nnodes s) k] /\
            _projection_operators s' = Some (<[k := Some (length (heap s))]> v)
        | Some l =>
            heap s' = heap s /\ _projection_operators s' = Some v /\
            r = match heap s !! l with
                | Some a => match ndarray_eq_None a with
                            | Ok _ => Ok l
                            | Raise e => Raise e
                            end
                | None => Raise ValueError
                end
        end
    end.
Proof.
  intros Hgood Hmat. unfold get_projection_operator.
  match goal with
  | |- context [bind (get_IRR_degeneracies ext) (fun degen =>
         bind _ (fun o => bind _ (fun _ => ?k)))] =>
      destruct (projection_prefix k s Hgood)
        as (s1 & v1 & E1 & G1 & F1 & H1 & T1 & D1 & P1 & Hv1 & L1 & S1)
  end.
  cbv zeta. rewrite <- Hv1. rewrite E1. clear E1.
  step. rewrite P1. change (default [] (Some v1)) with v1.
  destruct (py_index (Spec.numIRRs g) j) as [k|] eqn:Ej.
  2:{ rewrite py_getitem_out_of_range by (rewrite L1; exact Ej).
      rewrite bind_lift_raise.
      exists (Raise IndexError), s1. auto 10. }
  pose proof (py_index_lt _ _ _ Ej) as Hk.
  destruct (lookup_lt_is_Some_2 v1 k ltac:(lia)) as [o Ho].
  rewrite (py_getitem_index v1 j k o) by (rewrite ?L1; assumption).
  step.
  assert (Hslot : slot s k = o).
  { rewrite <- S1. unfold slot. rewrite P1. cbn. rewrite Ho. reflexivity. }
  rewrite Hslot. destruct o as [l|].
  - (* the slot holds an array *)
    assert (Hback : py_getitem v1 j = Ok (Some l))
      by (eapply py_getitem_index; rewrite ?L1; eauto).
    pose proof (projection_slot_is_None_run l s1) as Eis. rewrite H1 in Eis.
    destruct (heap s !! l) as [a|] eqn:Ea.
    + destruct (ndarray_eq_None a) as [b|e] eqn:Eb.
      * apply ndarray_eq_None_false in Eb. subst b.
        run Eis. step. step. rewrite P1. change (default [] (Some v1)) with v1.
        rewrite Hback. step.
        exists (Ok l), s1. auto 10.
      * rewrite (bind_raise _ _ _ _ _ Eis).
        exists (Raise e), s1. auto 10.
    + rewrite (bind_raise _ _ _ _ _ Eis).
      exists (Raise ValueError), s1. auto 10.
  - (* the slot is empty: the operator is computed *)
    cbn [projection_slot_is_None]. step. cbv iota.
    destruct (sage_entry_dimension j k Ej) as (row & Hrow & Egetrow & Eentry).
    destruct (get_character_table_run s1 (good_oracle _ _ _ G1))
      as (s2 & E2 & G2 & F2 & (A2 & A2' & A2'') & D2 & _).
    run E2. rewrite Eentry. step.
    destruct (get_automorphism_group_run s2 G2)
      as (s3 & E3 & G3 & F3 & (A3 & A3' & A3'') & D3 & _).
    run E3.
    destruct (get_character_table_run s3 G3)
      as (s4 & E4 & G4 & F4 & (A4 & A4' & A4'') & D4 & _).
    run E4. rewrite Egetrow. step.
    destruct (get_conjugacy_classes_matrices_run s4 G4)
      as (s5 & E5 & G5 & F5 & (A5 & A5' & A5'') & D5).
    run E5. step.
    assert (Hn : _nnodes s5 = _nnodes s).
    { rewrite (frame_nnodes _ _ F5), (frame_nnodes _ _ F4), (frame_nnodes _ _ F3),
        (frame_nnodes _ _ F2), (frame_nnodes _ _ F1). reflexivity. }
    rewrite Hn.
    destruct (projection_code_spec g (_nnodes s) Htable Hmat k row Hrow)
      as (result & Eresult & Earray & _).
    rewrite Eresult. step.
    destruct (dimension_integer g (_nnodes s) Hmat k Hk) as [d Hd].
    rewrite Hd, py_float_integer, <- Hd. step.
    fold (Spec.group_order g). rewrite Earray.
    step. step. cbn [_projection_operators set_heap].
    assert (P5 : _projection_operators s5 = Some v1) by congruence.
    assert (H5 : heap s5 = heap s) by congruence.
    rewrite P5. change (default [] (Some v1)) with v1.
    rewrite L1, Ej. step. step.
    cbn [_projection_operators set_projection_operators].
    change (default [] (Some ?x)) with x.
    rewrite (py_getitem_index _ j k (Some (length (heap s5)))).
    2:{ rewrite length_insert, L1. exact Ej. }
    2:{ apply list_lookup_insert_eq. lia. }
    step. rewrite H5.
    eexists _, _. split; [reflexivity|].
    assert (F : frame s s5).
    { repeat (eapply frame_trans; [eassumption|]). apply frame_refl. }
    destruct G5 as [Hadj Hg Ht Hc Hm].
    destruct F as [B1 B2 B3 B4 B5 B6 B7 B8 B9].
    split; [|split; [|split; [|split; [|repeat split]]]].
    + constructor; [constructor; cbn; auto | cbn | cbn].
      * destruct Hadj as (l & a & orb & Hl & Ha & Hsage).
        rewrite H5 in Ha.
        exists l, a, orb. repeat split; auto.
        rewrite lookup_app_l; [exact Ha|]. eapply lookup_lt_Some; eauto.
      * right. congruence.
      * intros v [= <-]. rewrite length_insert. exact L1.
    + constructor; cbn; auto.
      * exists [Spec.projection_array g (_nnodes s) k].
        reflexivity.
      * intros i l Hl. unfold slot. cbn.
        destruct (decide (k = i)) as [->|Hne].
        -- rewrite Hslot in Hl. discriminate.
        -- rewrite list_lookup_insert_ne by exact Hne.
           rewrite <- Hl, <- S1. unfold slot. rewrite P1. reflexivity.
    + cbn. congruence.
    + cbn. congruence.
Qed.

(** The test of the code, [np.abs(w-1.0)<epsilon] with [epsilon=1e-12],
    is the bound of the specification. *)
Lemma near_one_close_to_one w : near_one w = Spec.close_to_one w.
Proof. reflexivity. Qed.

Lemma selected_rows_code W VH :
  Spec.selected_rows W VH
  = concat (zip_with
      (fun w row => if near_one w then [mkarray (arr_dtype VH) [row]] else [])
      W (arr_rows VH)).
Proof.
  unfold Spec.selected_rows.
  change Spec.close_to_one with near_one. reflexivity.
Qed.

Lemma collect_rows_run VH : forall W i r2 result,
  (length W + i <= length (arr_rows VH))%nat ->
  collect_rows VH i W r2 result
  = Ok (r2 + Spec.R2 W,
        result ++ concat (zip_with
          (fun w row => if near_one w then [mkarray (arr_dtype VH) [row]] else [])
          W (drop i (arr_rows VH)))).
Proof.
  induction W as [|w W IH]; intros i r2 result Hlen; cbn [collect_rows].
  - cbn. rewrite app_nil_r, Z.add_0_r. reflexivity.
  - cbn [length] in Hlen.
    destruct (lookup_lt_is_Some_2 (arr_rows VH) i ltac:(lia)) as [row Hrow].
    rewrite (drop_S _ _ _ Hrow). cbn [zip_with concat].
    unfold Spec.R2. cbn [List.filter].
    rewrite <- (near_one_close_to_one w).
    destruct (near_one w).
    + rewrite (getitem_nat_lookup _ _ _ Hrow). cbn [obind].
      rewrite IH by lia. unfold Spec.R2. cbn [length].
      rewrite <- app_assoc. f_equal. f_equal. lia.
    + rewrite IH by lia. reflexivity.
Qed.

Lemma py_int_integer (d : Z) : py_int (of_Z d) = Ok d.
Proof.
  unfold py_int.
  assert (Hfloor : Qfloor (re (of_Z d)) = d).
  { cbn. rewrite (Qfloor_comp _ _ (Qred_correct _)). apply Qfloor_Z. }
  rewrite Hfloor.
  replace (re (of_Z d) - real_of_Z d)%Qc with (Q2Qc 0) by (cbn; ring).
  reflexivity.
Qed.

Lemma degeneracies_lookup j :
  (j < Spec.numIRRs g)%nat ->
  getitem_nat (Spec.degeneracies g) j = Ok (Spec.degeneracy g j).
Proof.
  intros Hj. apply getitem_nat_lookup. unfold Spec.degeneracies.
  change (map ?f ?l) with (f <$> l).
  rewrite list_lookup_fmap, lookup_seq_lt by exact Hj. reflexivity.
Qed.

Lemma collect_singular_vectors_frame dim dj P result s :
  exists r s',
    collect_singular_vectors ext dim dj P result s = (r, s') /\
    (s' = s \/ s' = log_calls [CallSvd] s).
Proof.
  unfold collect_singular_vectors, bind, deref, modify, lift, raise, ret.
  destruct (heap s !! P) as [a|]; [|eauto].
  destruct (la_svd ext a) as [[W VH]|]; [|eauto].
  destruct (py_int dim) as [d|e]; [|eauto].
  destruct (collect_rows VH 0 W 0 result) as [[r2 rows]|e]; [|eauto].
  cbn [fst snd]. destruct (d * dj =? r2); eauto.
Qed.

Lemma collect_singular_vectors_run dim d dj P a W VH result s :
  heap s !! P = Some a ->
  la_svd ext a = Some (W, VH) ->
  (length W <= length (arr_rows VH))%nat ->
  py_int dim = Ok d ->
  collect_singular_vectors ext dim dj P result s
  = (if d * dj =? Spec.R2 W then Ok (result ++ Spec.selected_rows W VH)
     else Raise Exception_,
     log_calls [CallSvd] s).
Proof.
  intros Ha Hsvd Hlen Hint.
  unfold collect_singular_vectors, bind, deref, modify, lift, raise, ret.
  rewrite Ha, Hsvd, Hint, collect_rows_run by lia.
  cbn [fst snd drop]. rewrite Z.add_0_l.
  rewrite selected_rows_code. destruct (d * dj =? Spec.R2 W); reflexivity.
Qed.

Lemma good_log c s : good ext g s -> good ext g (log_calls c s).
Proof.
  intros [[Hadj Hg Ht Hc Hm] Hd Hs].
  constructor; [constructor|..]; cbn; auto.
Qed.

Lemma frame_log c s : frame s (log_calls c s).
Proof.
  constructor; cbn; auto. exists []. rewrite app_nil_r. reflexivity.
Qed.

(** A state reached without touching the degeneracies or the slots. *)
Lemma good_oracle_step s s1 :
  good ext g s -> oracle_good ext g s1 ->
  _IRR_degeneracies s1 = _IRR_degeneracies s ->
  _projection_operators s1 = _projection_operators s ->
  good ext g s1.
Proof.
  intros [_ Hd Hs] Ho Ed Ep. constructor; [exact Ho | |].
  - rewrite Ed. exact Hd.
  - rewrite Ep. exact Hs.
Qed.

Lemma slot_default n o i :
  mjoin (default (repeat (@None nat) n) o !! i) = mjoin (default [] o !! i).
Proof.
  destruct o as [v|]; cbn; [reflexivity|].
  rewrite lookup_nil. cbn.
  destruct (repeat None n !! i) as [x|] eqn:E; cbn; [|reflexivity].
  apply lookup_repeat_Some in E as [-> _]. reflexivity.
Qed.

(** One pass through the loop of [get_transformation_operator]. *)
Lemma transformation_step_run s j result :
  good ext g s -> valid_matrices (_nnodes s) g -> (j < Spec.numIRRs g)%nat ->
  exists r s',
    transformation_step ext (Spec.degeneracies g) j result s = (r, s') /\
    good ext g s' /\ frame s s' /\
    _transformation_operator s' = _transformation_operator s /\
    (slot s j = None -> Spec.svd_defined ext g (_nnodes s) ->
     (forall i, i <> j -> slot s' i = slot s i) /\
     r = if Spec.rank_consistent ext g (_nnodes s) j
         then Ok (result ++ Spec.irr_rows ext g (_nnodes s) j)
         else Raise Exception_).
Proof.
  intros Hgood Hmat Hj. unfold transformation_step.
  destruct (get_character_table_run s (good_oracle _ _ _ Hgood))
    as (s1 & E1 & G1 & F1 & (A1 & A1' & A1'') & D1 & _).
  run E1.
  destruct (sage_entry_dimension (Z.of_nat j) j (py_index_nat _ _ Hj))
    as (row & Hrow & _ & Eentry).
  rewrite Eentry. step. rewrite (degeneracies_lookup j Hj). step.
  pose proof (good_oracle_step s s1 Hgood G1 D1 A1') as Hgood1.
  assert (Hslots1 : forall i, slot s1 i = slot s i)
    by (intros i; unfold slot; rewrite A1'; reflexivity).
  unfold Spec.rank_consistent, Spec.irr_rows.
  destruct (Spec.degeneracy g j =? 0) eqn:Edj.
  - (* the IRR is absent: no row *)
    exists (Ok result), s1. split; [reflexivity|].
    split; [exact Hgood1|]. split; [exact F1|]. split; [exact A1''|].
    intros _ _. split; [intros i _; apply Hslots1|].
    cbn [orb]. rewrite app_nil_r. reflexivity.
  - assert (Hn1 : _nnodes s1 = _nnodes s) by apply (frame_nnodes _ _ F1).
    destruct (get_projection_operator_run s1 (Z.of_nat j) Hgood1
                ltac:(rewrite Hn1; exact Hmat))
      as (r2 & s2 & E2 & G2 & F2 & T2 & D2 & Hcase).
    cbv zeta in Hcase. rewrite (py_index_nat _ _ Hj), Hslots1, Hn1, A1, A1' in Hcase.
    destruct (slot s j) as [l|] eqn:Eslot.
    + (* the slot is taken: whatever the call gives, the frame holds *)
      destruct r2 as [P|e].
      * run E2.
        destruct (collect_singular_vectors_frame
                    (Spec.dimension g j) (Spec.degeneracy g j) P result s2)
          as (r & s3 & E3 & Hs3).
        rewrite E3. exists r, s3. split; [reflexivity|].
        assert (G3 : good ext g s3 /\ frame s2 s3 /\
                     _transformation_operator s3 = _transformation_operator s2).
        { destruct Hs3 as [-> | ->].
          - auto using frame_refl.
          - auto using good_log, frame_log. }
        destruct G3 as (G3 & F3 & T3).
        split; [exact G3|].
        split; [eauto using frame_trans|].
        split; [congruence|]. intros; discriminate.
      * rewrite (bind_raise _ _ _ _ _ E2).
        exists (Raise e), s2. split; [reflexivity|].
        split; [exact G2|]. split; [eauto using frame_trans|].
        split; [congruence|]. intros; discriminate.
    + (* the slot is empty: the projector is computed and decomposed *)
      destruct Hcase as (-> & Hheap & Hprojs).
      run E2.
      destruct (collect_singular_vectors_frame
                  (Spec.dimension g j) (Spec.degeneracy g j) (length (heap s)) result s2)
        as (r & s3 & E3 & Hs3).
      rewrite E3. exists r, s3. split; [reflexivity|].
      assert (G3 : good ext g s3 /\ frame s2 s3 /\
                   _transformation_operator s3 = _transformation_operator s2 /\
                   _projection_operators s3 = _projection_operators s2).
      { destruct Hs3 as [-> | ->].
        - auto using frame_refl.
        - auto using good_log, frame_log. }
      destruct G3 as (G3 & F3 & T3 & P3).
      split; [exact G3|].
      split; [eauto using frame_trans|].
      split; [congruence|].
      intros _ Hsvd. split.
      * intros i Hi. unfold slot at 1. rewrite P3, Hprojs. cbn.
        rewrite list_lookup_insert_ne by congruence.
        rewrite slot_default. reflexivity.
      * destruct (Z.eqb_neq (Spec.degeneracy g j) 0) as [Hne _].
        specialize (Hne Edj).
        destruct (Hsvd j Hj Hne) as (W & VH & Esvd & Hlen).
        destruct (dimension_integer g (_nnodes s) Hmat j Hj) as [d Hd].
        assert (HR1 : Spec.R1 g j = d * Spec.degeneracy g j).
        { unfold Spec.R1. rewrite Hd. f_equal.
          cbn. rewrite (Qfloor_comp _ _ (Qred_correct _)). apply Qfloor_Z. }
        assert (Hlook : heap s2 !! length (heap s)
                        = Some (Spec.projection_array g (_nnodes s) j)).
        { rewrite Hheap. apply list_lookup_middle. reflexivity. }
        rewrite (collect_singular_vectors_run _ d _ _ _ W VH _ _ Hlook Esvd Hlen) in E3
          by (rewrite Hd; apply py_int_integer).
        injection E3 as <- _.
        rewrite Esvd, HR1. cbn [orb]. reflexivity.
Qed.

Lemma transformation_loop_run : forall len j0 result s,
  good ext g s -> valid_matrices (_nnodes s) g ->
  (j0 + len <= Spec.numIRRs g)%nat ->
  exists r s',
    transformation_loop ext (Spec.degeneracies g) (seq j0 len) result s = (r, s') /\
    good ext g s' /\ frame s s' /\
    _transformation_operator s' = _transformation_operator s /\
    ((forall i, (j0 <= i)%nat -> slot s i = None) ->
     Spec.svd_defined ext g (_nnodes s) ->
     r = if forallb (Spec.rank_consistent ext g (_nnodes s)) (seq j0 len)
         then Ok (result ++ concat (map (Spec.irr_rows ext g (_nnodes s)) (seq j0 len)))
         else Raise Exception_).
Proof.
  induction len as [|len IH]; intros j0 result s Hgood Hmat Hlen;
    cbn [seq transformation_loop].
  - exists (Ok result), s. split; [reflexivity|].
    split; [exact Hgood|]. split; [apply frame_refl|]. split; [reflexivity|].
    intros _ _. cbn. rewrite app_nil_r. reflexivity.
  - destruct (transformation_step_run s j0 result Hgood Hmat ltac:(lia))
      as (r1 & s1 & E1 & G1 & F1 & T1 & Hstep).
    destruct r1 as [result1|e].
    + run E1.
      assert (Hn : _nnodes s1 = _nnodes s) by apply (frame_nnodes _ _ F1).
      destruct (IH (S j0) result1 s1 G1 ltac:(rewrite Hn; exact Hmat) ltac:(lia))
        as (r & s2 & E2 & G2 & F2 & T2 & Hloop).
      rewrite E2. exists r, s2. split; [reflexivity|].
      split; [exact G2|]. split; [eauto using frame_trans|].
      split; [congruence|].
      intros Hslots Hsvd.
      destruct (Hstep (Hslots j0 ltac:(lia)) Hsvd) as (Hothers & Hr1).
      rewrite Hn in Hloop. rewrite Hloop; [|intros i Hi|exact Hsvd].
      * cbn [forallb map concat].
        destruct (Spec.rank_consistent ext g (_nnodes s) j0); [|discriminate].
        injection Hr1 as ->. cbn [andb]. rewrite <- app_assoc. reflexivity.
      * rewrite Hothers by lia. apply Hslots. lia.
    + rewrite (bind_raise _ _ _ _ _ E1).
      exists (Raise e), s1. split; [reflexivity|].
      split; [exact G1|]. split; [exact F1|]. split; [exact T1|].
      intros Hslots Hsvd.
      destruct (Hstep (Hslots j0 ltac:(lia)) Hsvd) as (_ & Hr1).
      cbn [forallb].
      destruct (Spec.rank_consistent ext g (_nnodes s) j0); [discriminate|].
      exact Hr1.
Qed.

(** What [get_transformation_operator] does when nothing is cached for
    it yet. *)
Lemma get_transformation_operator_run s :
  good ext g s -> valid_matrices (_nnodes s) g ->
  _transformation_operator s = None ->
  exists r s',
    get_transformation_operator ext s = (r, s') /\
    good ext g s' /\ frame s s' /\
    (forall e, r = Raise e -> _transformation_operator s' = None) /\
    ((forall i, slot s i = None) -> Spec.svd_defined ext g (_nnodes s) ->
     if forallb (Spec.rank_consistent ext g (_nnodes s)) (seq 0 (Spec.numIRRs g))
     then exists l l0,
            r = Ok l /\ _transformation_operator s' = Some l0 /\ l <> l0 /\
            heap s' !! l0 = Some (Spec.transformation ext g (_nnodes s)) /\
            heap s' !! l = Some (Spec.transformation ext g (_nnodes s))
     else r = Raise Exception_).
Proof.
  intros Hgood Hmat Hnone. unfold get_transformation_operator.
  unfold transformation_is_None. step. rewrite Hnone. step. cbv iota.
  destruct (get_IRR_degeneracies_run s Hgood)
    as (s1 & E1 & G1 & F1 & (A1 & A1' & A1'') & D1).
  run E1.
  assert (Hlen : length (Spec.degeneracies g) = Spec.numIRRs g).
  { unfold Spec.degeneracies. rewrite length_map, length_seq. reflexivity. }
  rewrite Hlen.
  assert (Hn : _nnodes s1 = _nnodes s) by apply (frame_nnodes _ _ F1).
  destruct (transformation_loop_run (Spec.numIRRs g) 0 [] s1 G1
              ltac:(rewrite Hn; exact Hmat) ltac:(lia))
    as (r & s2 & E2 & G2 & F2 & T2 & Hloop).
  rewrite Hn in Hloop.
  assert (Hslots1 : forall i, slot s1 i = slot s i)
    by (intros i; unfold slot; rewrite A1'; reflexivity).
  destruct r as [rows|e].
  - run E2. step. step. step.
    cbn [_transformation_operator set_transformation_operator set_heap].
    rewrite (bind_deref _ (np_array rows))
      by (cbn; apply list_lookup_middle; reflexivity).
    unfold alloc. cbn [heap set_transformation_operator set_heap].
    eexists _, _. split; [reflexivity|].
    destruct G2 as [[Hadj Hg Ht Hc Hm] Hd Hs].
    assert (F : frame s s2) by eauto using frame_trans.
    destruct F as [B1 B2 [h B3] B4 B5 B6 B7 B8 B9].
    split; [|split; [|split]].
    + constructor; [constructor|..]; cbn; auto.
      destruct Hadj as (l & a & orb & Hl & Ha & Hsage).
      exists l, a, orb. repeat split; auto.
      rewrite <- app_assoc, lookup_app_l; [exact Ha|]. eapply lookup_lt_Some; eauto.
    + constructor; cbn; auto.
      eexists. rewrite B3, <- !app_assoc. reflexivity.
    + intros e [=].
    + intros Hslots Hsvd.
      specialize (Hloop ltac:(intros; rewrite Hslots1; auto) Hsvd).
      destruct (forallb _ _); [|discriminate].
      injection Hloop as ->. cbn [app].
      exists (length (heap s2 ++ [np_array (concat (map (Spec.irr_rows ext g (_nnodes s))
                                                 (seq 0 (Spec.numIRRs g))))])),
             (length (heap s2)).
      cbn. rewrite length_app. cbn.
      split; [reflexivity|]. split; [reflexivity|]. split; [lia|]. split.
      * rewrite <- app_assoc. apply list_lookup_middle. reflexivity.
      * apply list_lookup_middle. rewrite length_app. reflexivity.
  - rewrite ?bind_assoc. rewrite (bind_raise _ _ _ _ _ E2).
    exists (Raise e), s2. split; [reflexivity|].
    split; [exact G2|]. split; [eauto using frame_trans|].
    split; [intros _ _; congruence|].
    intros Hslots Hsvd.
    specialize (Hloop ltac:(intros; rewrite Hslots1; auto) Hsvd).
    destruct (forallb _ _); [discriminate|]. congruence.
Qed.

End GoodRuns.

(** ** The constructor *)

Lemma init_run ext g orb a s0 :
  sage_automorphism_group ext a = Some (g, orb) ->
  exists s, __init__ (Some a) s0 = (Ok tt, s) /\
            good ext g s /\ _nnodes s = length (arr_rows a) /\
            (forall i, slot s i = None) /\ _transformation_operator s = None.
Proof.
  intros Hsage. eexists. split; [reflexivity|]. cbn.
  split; [|split; [reflexivity|split; [|reflexivity]]].
  - constructor; [constructor|..]; cbn; try (left; reflexivity); try discriminate.
    exists (length (heap s0)), a, orb. repeat split; auto.
    apply list_lookup_middle. reflexivity.
  - intros i. unfold slot. cbn. rewrite lookup_nil. reflexivity.
Qed.

(** Setting an adjacency matrix gives a good state again, for the group
    of the new matrix. *)
Lemma set_adjacency_matrix_good ext g orb a s0 :
  sage_automorphism_group ext a = Some (g, orb) ->
  exists s, _set_adjacency_matrix (Some a) s0 = (Ok tt, s) /\
            good ext g s /\ _nnodes s = length (arr_rows a) /\
            (forall i, slot s i = None) /\ _transformation_operator s = None.
Proof.
  intros Hsage. eexists. split; [reflexivity|]. cbn.
  split; [|split; [reflexivity|split; [|reflexivity]]].
  - constructor; [constructor|..]; cbn; try (left; reflexivity); try discriminate.
    exists (length (heap s0)), a, orb. repeat split; auto.
    apply list_lookup_middle. reflexivity.
  - intros i. unfold slot. cbn. rewrite lookup_nil. reflexivity.
Qed.

(** A good state stays good when the adjacency matrix is read, and when
    the caller writes to an array that is not the object's adjacency
    matrix. *)
Lemma get_adjacency_matrix_good ext g s :
  good ext g s -> good ext g (snd (get_adjacency_matrix s)).
Proof.
  intros [[Hadj Hg Ht Hc Hm] Hd Hs].
  destruct Hadj as (l & a & orb & Hl & Ha & Hsage).
  unfold get_adjacency_matrix. rewrite bind_gets, Hl.
  rewrite (bind_deref _ a) by exact Ha. cbn.
  constructor; [constructor|..]; cbn; auto.
  exists l, a, orb. repeat split; auto.
  rewrite lookup_app_l; [exact Ha|]. eapply lookup_lt_Some; eauto.
Qed.

Lemma caller_write_good ext g s l0 l b :
  _adjmat s = Some l0 -> l <> l0 ->
  good ext g s -> good ext g (caller_write l b s).
Proof.
  intros Hl0 Hne [[Hadj Hg Ht Hc Hm] Hd Hs].
  destruct Hadj as (l1 & a & orb & Hl & Ha & Hsage).
  constructor; [constructor|..]; cbn; auto.
  exists l1, a, orb. repeat split; auto.
  rewrite list_lookup_insert_ne; [exact Ha|]. congruence.
Qed.

(** ** The small networks satisfy the invariants *)

Ltac example_good :=
  constructor;
  [ constructor;
    [ eexists _, _, _; repeat split; reflexivity
    | left; reflexivity | left; reflexivity | left; reflexivity | left; reflexivity ]
  | left; reflexivity
  | intros v H; discriminate H ].

Ltac example_valid_table :=
  constructor;
  [ reflexivity
  | repeat constructor
  | discriminate
  | repeat (constructor; [discriminate|]); constructor ].

Ltac example_valid_matrices :=
  constructor;
  [ repeat constructor
  | repeat (constructor; [exists 1; reflexivity|]); constructor ].

Import Examples.

Lemma K2_good : good K2_ext K2_group K2_network.
Proof. example_good. Qed.

Lemma K2_valid_table : valid_table K2_group.
Proof. example_valid_table. Qed.

Lemma K2_valid_matrices : valid_matrices 2 K2_group.
Proof. example_valid_matrices. Qed.

Lemma trivial_good : good trivial_ext trivial_group trivial_network.
Proof. example_good. Qed.

Lemma C4_valid : valid_table C4_group /\ valid_matrices 4 C4_group.
Proof. split; [example_valid_table | example_valid_matrices]. Qed.

(** ** The degeneracies *)

(** C1. From a good state and for oracle data that satisfies the
    invariants, [get_IRR_degeneracies] returns one integer per IRR, in
    the order of the rows of the character table, the integer of IRR [i]
    being [round(Re(sum_j (|class_j|/|G|) conj(character[i][j])
    trace(class_j[0])))]. *)
Theorem get_IRR_degeneracies_spec ext g s :
  good ext g s -> valid_table g ->
  exists d s',
    get_IRR_degeneracies ext s = (Ok d, s') /\
    length d = Spec.numIRRs g /\
    forall i, (i < Spec.numIRRs g)%nat -> d !! i = Some (Spec.degeneracy g i).
Proof.
  intros Hgood Hvalid.
  destruct (get_IRR_degeneracies_run ext g Hvalid s Hgood) as (s' & E & _).
  exists (Spec.degeneracies g), s'. split; [exact E|].
  unfold Spec.degeneracies. split.
  - rewrite length_map, length_seq. reflexivity.
  - intros i Hi. change (map ?f ?l) with (f <$> l).
    rewrite list_lookup_fmap, lookup_seq_lt by exact Hi. reflexivity.
Qed.

Lemma get_IRR_degeneracies_spec_K2 :
  good K2_ext K2_group K2_network /\ valid_table K2_group /\
  exists d s',
    get_IRR_degeneracies K2_ext K2_network = (Ok d, s') /\
    length d = Spec.numIRRs K2_group /\
    forall i, (i < Spec.numIRRs K2_group)%nat ->
              d !! i = Some (Spec.degeneracy K2_group i).
Proof.
  split; [example_good|]. split; [example_valid_table|].
  apply (get_IRR_degeneracies_spec K2_ext K2_group K2_network);
    [example_good | example_valid_table].
Defined.

(** ** The projection operators *)

(** C2. For a valid IRR index [i] whose operator is not cached yet,
    [get_projection_operator i] returns the [n]-by-[n] matrix
    [(dimension_i/|G|) sum_j sum_{g in class_j} character[i][j] D(g)]:
    every element of every class contributes its own permutation matrix,
    weighted by the character of its class, not conjugated. *)
Theorem get_projection_operator_spec ext g s (i : nat) :
  good ext g s -> valid_table g -> valid_matrices (_nnodes s) g ->
  (i < Spec.numIRRs g)%nat -> slot s i = None ->
  exists l s',
    get_projection_operator ext (Z.of_nat i) s = (Ok l, s') /\
    heap s' !! l = Some (Spec.projection_array g (_nnodes s) i) /\
    map length (Spec.projection g (_nnodes s) i) = repeat (_nnodes s) (_nnodes s).
Proof.
  intros Hgood Htable Hmat Hi Hslot.
  destruct (get_projection_operator_run ext g Htable s (Z.of_nat i) Hgood Hmat)
    as (r & s' & E & _ & _ & _ & _ & Hcase).
  cbv zeta in Hcase. rewrite (py_index_nat _ _ Hi), Hslot in Hcase.
  destruct Hcase as (-> & Hheap & _).
  exists (length (heap s)), s'. split; [exact E|]. split.
  - rewrite Hheap, list_lookup_middle by reflexivity. reflexivity.
  - apply projection_shape; assumption.
Qed.

Lemma get_projection_operator_spec_K2 :
  good K2_ext K2_group K2_network /\ valid_table K2_group /\
  valid_matrices (_nnodes K2_network) K2_group /\
  (1 < Spec.numIRRs K2_group)%nat /\ slot K2_network 1 = None /\
  exists l s',
    get_projection_operator K2_ext (Z.of_nat 1) K2_network = (Ok l, s') /\
    heap s' !! l = Some (Spec.projection_array K2_group (_nnodes K2_network) 1) /\
    map length (Spec.projection K2_group (_nnodes K2_network) 1)
    = repeat (_nnodes K2_network) (_nnodes K2_network).
Proof.
  split; [example_good|]. split; [example_valid_table|].
  split; [example_valid_matrices|]. split; [cbn; lia|]. split; [reflexivity|].
  apply (get_projection_operator_spec K2_ext K2_group K2_network 1);
    [example_good | example_valid_table | example_valid_matrices | cbn; lia | reflexivity].
Defined.

(** C10. A negative index [j] with [-numIRRs <= j < 0] does not fail:
    the index wraps, and the call returns, and caches, the projection
    operator of IRR [numIRRs + j]. *)
Theorem get_projection_operator_negative_index ext g s j :
  good ext g s -> valid_table g -> valid_matrices (_nnodes s) g ->
  - Z.of_nat (Spec.numIRRs g) <= j < 0 ->
  slot s (Z.to_nat (Z.of_nat (Spec.numIRRs g) + j)) = None ->
  exists l s',
    get_projection_operator ext j s = (Ok l, s') /\
    heap s' !! l
    = Some (Spec.projection_array g (_nnodes s) (Z.to_nat (Z.of_nat (Spec.numIRRs g) + j))) /\
    slot s' (Z.to_nat (Z.of_nat (Spec.numIRRs g) + j)) = Some l.
Proof.
  intros Hgood Htable Hmat Hj Hslot.
  destruct (get_projection_operator_run ext g Htable s j Hgood Hmat)
    as (r & s' & E & G' & _ & _ & _ & Hcase).
  cbv zeta in Hcase. rewrite (py_index_wrap_Some _ _ Hj), Hslot in Hcase.
  destruct Hcase as (-> & Hheap & Hprojs).
  exists (length (heap s)), s'. split; [exact E|]. split.
  - rewrite Hheap, list_lookup_middle by reflexivity. reflexivity.
  - unfold slot. rewrite Hprojs. cbn.
    rewrite list_lookup_insert_eq; [reflexivity|].
    pose proof (good_slots _ _ _ G' _ Hprojs) as Hlen.
    rewrite length_insert in Hlen. lia.
Qed.

Lemma get_projection_operator_negative_index_K2 :
  good K2_ext K2_group K2_network /\ valid_table K2_group /\
  valid_matrices (_nnodes K2_network) K2_group /\
  - Z.of_nat (Spec.numIRRs K2_group) <= -1 < 0 /\
  slot K2_network (Z.to_nat (Z.of_nat (Spec.numIRRs K2_group) + -1)) = None /\
  exists l s',
    get_projection_operator K2_ext (-1) K2_network = (Ok l, s') /\
    heap s' !! l
    = Some (Spec.projection_array K2_group (_nnodes K2_network)
              (Z.to_nat (Z.of_nat (Spec.numIRRs K2_group) + -1))) /\
    slot s' (Z.to_nat (Z.of_nat (Spec.numIRRs K2_group) + -1)) = Some l.
Proof.
  split; [example_good|]. split; [example_valid_table|].
  split; [example_valid_matrices|]. split; [cbn; lia|]. split; [reflexivity|].
  apply (get_projection_operator_negative_index K2_ext K2_group K2_network (-1));
    [example_good | example_valid_table | example_valid_matrices | cbn; lia | reflexivity].
Defined.




(** C7 fails as stated.  The array returned is a complex128 array, not a
    real one, already for the single isolated node; and when Sage answers
    with a group whose characters are not real (here a stub oracle, the
    cyclic group of order four on four nodes) its entries keep their
    imaginary parts: entry [[0,1]] of the operator of IRR 1 is [i/4]. *)
Lemma projection_not_real_counterexample :
  (let r := get_projection_operator trivial_ext 0 trivial_network in
   exists a, fst r = Ok 1%nat /\ heap (snd r) !! 1%nat = Some a /\
             arr_dtype a = complex128 /\ a <> np_real a) /\
  (let r := get_projection_operator C4_ext 1 C4_network in
   exists a row, fst r = Ok 1%nat /\ heap (snd r) !! 1%nat = Some a /\
                 arr_rows a !! 0%nat = Some row /\
                 row !! 1%nat = Some (Q2Qc 0, Q2Qc (1 # 4)) /\
                 arr_rows a <> arr_rows (np_real a)).
Proof.
  split.
  - eexists. split; [vm_compute; reflexivity|]. split; [vm_compute; reflexivity|].
    split; [reflexivity|]. intros H. discriminate (f_equal arr_dtype H).
  - eexists _, _. split; [vm_compute; reflexivity|]. split; [vm_compute; reflexivity|].
    split; [reflexivity|]. split.
    + cbn. f_equal. f_equal; apply Qc_is_canon; reflexivity.
    + intros H.
      apply (f_equal (fun m => this (im (nth 1 (nth 0 m []) czero)))) in H.
      vm_compute in H. discriminate H.
Qed.

(** C7, amended.  For a valid IRR index whose operator is not cached yet,
    the array [get_projection_operator] returns is the complex group sum
    itself, as a complex128 array: no cast to a real matrix is applied,
    and the imaginary parts of the sum are kept. *)
Theorem get_projection_operator_complex ext g s (i : nat) :
  good ext g s -> valid_table g -> valid_matrices (_nnodes s) g ->
  (i < Spec.numIRRs g)%nat -> slot s i = None ->
  exists l s' a,
    get_projection_operator ext (Z.of_nat i) s = (Ok l, s') /\
    heap s' !! l = Some a /\
    arr_dtype a = complex128 /\
    map (map im) (arr_rows a) = map (map im) (Spec.projection g (_nnodes s) i) /\
    a <> np_real a.
Proof.
  intros Hgood Htable Hmat Hi Hslot.
  destruct (get_projection_operator_run ext g Htable s (Z.of_nat i) Hgood Hmat)
    as (r & s' & E & _ & _ & _ & _ & Hcase).
  cbv zeta in Hcase. rewrite (py_index_nat _ _ Hi), Hslot in Hcase.
  destruct Hcase as (-> & Hheap & _).
  exists (length (heap s)), s', (Spec.projection_array g (_nnodes s) i).
  split; [exact E|]. split.
  - rewrite Hheap, list_lookup_middle by reflexivity. reflexivity.
  - split; [reflexivity|]. split; [reflexivity|].
    intros H. discriminate (f_equal arr_dtype H).
Qed.

Lemma get_projection_operator_complex_K2 :
  good K2_ext K2_group K2_network /\ valid_table K2_group /\
  valid_matrices (_nnodes K2_network) K2_group /\
  (0 < Spec.numIRRs K2_group)%nat /\ slot K2_network 0 = None /\
  exists l s' a,
    get_projection_operator K2_ext (Z.of_nat 0) K2_network = (Ok l, s') /\
    heap s' !! l = Some a /\
    arr_dtype a = complex128 /\
    map (map im) (arr_rows a)
    = map (map im) (Spec.projection K2_group (_nnodes K2_network) 0) /\
    a <> np_real a.
Proof.
  split; [example_good|]. split; [example_valid_table|].
  split; [example_valid_matrices|]. split; [cbn; lia|]. split; [reflexivity|].
  apply (get_projection_operator_complex K2_ext K2_group K2_network 0);
    [example_good | example_valid_table | example_valid_matrices | cbn; lia | reflexivity].
Defined.

(** ** Setting the adjacency matrix *)

(** C8 fails as stated.  An array of one row and two columns, and an
    array without rows, are accepted and replace the state; and [None],
    the one input that is refused, is refused after the state has been
    cleared. *)
Lemma set_adjacency_matrix_counterexample :
  (let r := _set_adjacency_matrix (Some wide_adjmat) trivial_network in
   fst r = Ok tt /\ _adjmat (snd r) = Some 1%nat /\
   heap (snd r) !! 1%nat = Some wide_adjmat /\ _nnodes (snd r) = 1%nat) /\
  (let r := _set_adjacency_matrix (Some empty_adjmat) trivial_network in
   fst r = Ok tt /\ _adjmat (snd r) = Some 1%nat /\
   heap (snd r) !! 1%nat = Some empty_adjmat /\ _nnodes (snd r) = 0%nat) /\
  (let r := _set_adjacency_matrix None trivial_network in
   fst r = Raise AttributeError /\
   _adjmat trivial_network = Some 0%nat /\ _adjmat (snd r) = None).
Proof. repeat split. Qed.

(** C8, amended.  Setting the adjacency matrix validates nothing: every
    array, square or not, empty or not, is accepted; a copy of it replaces
    the stored matrix, the node count becomes its number of rows, and
    every cached field is cleared. *)
Theorem set_adjacency_matrix_accepts_any a s :
  exists s',
    _set_adjacency_matrix (Some a) s = (Ok tt, s') /\
    _adjmat s' = Some (length (heap s)) /\ heap s' = heap s ++ [a] /\
    _nnodes s' = length (arr_rows a) /\
    _group s' = None /\ _orbits s' = None /\ _permutation_matrices s' = None /\
    _conjugacy_classes s' = None /\ _conjugacy_classes_matrices s' = None /\
    _character_table s' = None /\ _IRR_degeneracies s' = None /\
    _projection_operators s' = None /\ _transformation_operator s' = None.
Proof. eexists. split; [reflexivity|]. cbn. repeat split. Qed.

(** ** The transformation operator *)

(** C3. When nothing is cached for it and every IRR passes the rank
    check, [get_transformation_operator] returns the matrix made of, for
    each IRR [j] in the order of the character table, the rows of [VH] in
    the decomposition of [P_j] whose singular value [w] has
    [|w - 1| < 1e-12] ([Spec.close_to_one], where the bound is written
    out); an IRR of degeneracy zero gives no row, and the rows are those
    of [VH], unchanged. *)
Theorem get_transformation_operator_spec ext g s :
  good ext g s -> valid_table g -> valid_matrices (_nnodes s) g ->
  _transformation_operator s = None -> (forall i, slot s i = None) ->
  Spec.svd_defined ext g (_nnodes s) ->
  forallb (Spec.rank_consistent ext g (_nnodes s)) (seq 0 (Spec.numIRRs g)) = true ->
  exists l s',
    get_transformation_operator ext s = (Ok l, s') /\
    heap s' !! l = Some (Spec.transformation ext g (_nnodes s)).
Proof.
  intros Hgood Htable Hmat Hnone Hslots Hsvd Hrank.
  destruct (get_transformation_operator_run ext g Htable s Hgood Hmat Hnone)
    as (r & s' & E & _ & _ & _ & Hcase).
  specialize (Hcase Hslots Hsvd). rewrite Hrank in Hcase.
  destruct Hcase as (l & l0 & -> & _ & _ & _ & Hl).
  exists l, s'. split; [exact E | exact Hl].
Qed.

Ltac example_svd_defined :=
  intros j Hj _; destruct j as [|j]; [|cbn in Hj; lia];
  eexists _, _; split; [vm_compute; reflexivity | cbn; lia].

Ltac square_valid_matrices :=
  constructor;
  [ repeat constructor
  | repeat (constructor;
            [first [exists 1; reflexivity | exists 2; reflexivity]|]); constructor ].

Ltac square_svd_defined :=
  intros j Hj Hd;
  do 5 (destruct j as [|j];
        [ first [ exfalso; apply Hd; vm_compute; reflexivity
                | eexists _, _; split; [vm_compute; reflexivity | cbn; lia] ] | ]);
  cbn in Hj; lia.

(** On the square the five IRRs have the degeneracies 1, 0, 0, 1, 1: the
    second and the third are skipped, the first and the fourth give the
    one row of [VH] whose singular value is one and not the three whose
    singular value is zero, and the last, of dimension two, gives two
    rows.  The rows come in the order of the IRRs. *)
Lemma get_transformation_operator_spec_square :
  good D4_ext D4_group square_network /\ valid_table D4_group /\
  valid_matrices (_nnodes square_network) D4_group /\
  _transformation_operator square_network = None /\
  (forall i, slot square_network i = None) /\
  Spec.svd_defined D4_ext D4_group (_nnodes square_network) /\
  forallb (Spec.rank_consistent D4_ext D4_group (_nnodes square_network))
          (seq 0 (Spec.numIRRs D4_group)) = true /\
  (exists l s',
     get_transformation_operator D4_ext square_network = (Ok l, s') /\
     heap s' !! l
     = Some (Spec.transformation D4_ext D4_group (_nnodes square_network))) /\
  Spec.degeneracies D4_group = [1; 0; 0; 1; 1] /\
  Spec.transformation D4_ext D4_group (_nnodes square_network)
  = mkarray complex128 [square_even; square_odd; square_pair1; square_pair2].
Proof.
  split; [example_good|]. split; [example_valid_table|].
  split; [square_valid_matrices|]. split; [reflexivity|].
  split; [intros [|i]; reflexivity|]. split; [square_svd_defined|].
  split; [vm_compute; reflexivity|].
  split; [|split; vm_compute; reflexivity].
  apply (get_transformation_operator_spec D4_ext D4_group square_network);
    [ example_good | example_valid_table | square_valid_matrices | reflexivity
    | intros [|i]; reflexivity | square_svd_defined | vm_compute; reflexivity ].
Defined.

(** C4. From a good state with no transformation operator cached: a
    call that raises leaves the transformation-operator field unset and
    keeps what was cached (degeneracies, projection operators, Sage
    data); and if for some IRR the number [R2] of singular values within
    [epsilon] of one differs from [R1 = dimension_j * degeneracy_j], the
    call does raise, and returns no matrix. *)
Theorem rank_mismatch_aborts ext g s :
  good ext g s -> valid_table g -> valid_matrices (_nnodes s) g ->
  _transformation_operator s = None ->
  (forall e s',
     get_transformation_operator ext s = (Raise e, s') ->
     _transformation_operator s' = None /\ frame s s' /\ good ext g s') /\
  (forall j W VH,
     (forall i, slot s i = None) -> Spec.svd_defined ext g (_nnodes s) ->
     (j < Spec.numIRRs g)%nat -> Spec.degeneracy g j <> 0 ->
     la_svd ext (Spec.projection_array g (_nnodes s) j) = Some (W, VH) ->
     Spec.R1 g j <> Spec.R2 W ->
     exists s', get_transformation_operator ext s = (Raise Exception_, s')).
Proof.
  intros Hgood Htable Hmat Hnone.
  destruct (get_transformation_operator_run ext g Htable s Hgood Hmat Hnone)
    as (r & s' & E & G' & F' & Hraise & Hcase).
  split.
  - intros e s'' E'. rewrite E in E'. injection E' as -> <-.
    split; [eapply Hraise; reflexivity|]. split; assumption.
  - intros j W VH Hslots Hsvd Hj Hdeg HW Hne.
    specialize (Hcase Hslots Hsvd).
    assert (Hrank : forallb (Spec.rank_consistent ext g (_nnodes s))
                            (seq 0 (Spec.numIRRs g)) = false).
    { apply not_true_is_false. intros Hall.
      rewrite forallb_forall in Hall.
      specialize (Hall j ltac:(apply in_seq; lia)).
      unfold Spec.rank_consistent in Hall. rewrite HW in Hall.
      apply orb_true_iff in Hall as [H|H]; apply Z.eqb_eq in H; contradiction. }
    rewrite Hrank in Hcase. subst r. exists s'. exact E.
Qed.

Lemma rank_mismatch_aborts_trivial :
  good trivial_ext_off trivial_group trivial_network /\ valid_table trivial_group /\
  valid_matrices (_nnodes trivial_network) trivial_group /\
  _transformation_operator trivial_network = None /\
  exists s',
    get_transformation_operator trivial_ext_off trivial_network = (Raise Exception_, s') /\
    _transformation_operator s' = None /\ frame trivial_network s' /\
    good trivial_ext_off trivial_group s'.
Proof.
  split; [example_good|]. split; [example_valid_table|].
  split; [example_valid_matrices|]. split; [reflexivity|].
  destruct (rank_mismatch_aborts trivial_ext_off trivial_group trivial_network)
    as [Hframe Habort];
    [example_good | example_valid_table | example_valid_matrices | reflexivity |].
  destruct (Habort 0%nat
              [(Q2Qc 1 - Q2Qc (1 # 1000000))%Qc]
              (mkarray complex128 [[cone]])) as [s' E].
  - intros [|i]; reflexivity.
  - example_svd_defined.
  - cbn; lia.
  - vm_compute. discriminate.
  - vm_compute. reflexivity.
  - vm_compute. discriminate.
  - exists s'. split; [exact E|]. apply (Hframe Exception_). exact E.
Defined.

(** ** Calling twice *)

(** A cached value that is a list or a Sage object is returned as it is,
    and nothing is computed again. *)
Lemma get_IRR_degeneracies_cached ext d s :
  _IRR_degeneracies s = Some d -> get_IRR_degeneracies ext s = (Ok d, s).
Proof. intros H. unfold get_IRR_degeneracies. step. rewrite H. reflexivity. Qed.

Lemma get_character_table_cached ext t s :
  _character_table s = Some t -> get_character_table ext s = (Ok t, s).
Proof. intros H. unfold get_character_table. step. rewrite H. reflexivity. Qed.

Lemma get_automorphism_group_cached ext g s :
  _group s = Some g -> get_automorphism_group ext s = (Ok g, s).
Proof. intros H. unfold get_automorphism_group. step. rewrite H. reflexivity. Qed.

(** On an object without a matrix, Sage is asked for the group of the
    graph without nodes, and the answer is cached. *)
Lemma get_automorphism_group_without_matrix ext g orb s :
  _group s = None -> _adjmat s = None ->
  sage_automorphism_group ext (mkarray int64 []) = Some (g, orb) ->
  get_automorphism_group ext s
  = (Ok g, set_group g orb (log_calls [CallAutomorphismGroup] s)).
Proof.
  intros Hg Ha Hsage. unfold get_automorphism_group.
  rewrite bind_gets, Hg, bind_gets, Ha, bind_ret, bind_modify, Hsage, bind_modify.
  reflexivity.
Qed.

Lemma get_conjugacy_classes_cached ext c s :
  _conjugacy_classes s = Some c -> get_conjugacy_classes ext s = (Ok c, s).
Proof. intros H. unfold get_conjugacy_classes. step. rewrite H. reflexivity. Qed.

(** On a network of two nodes or more, the second request for a
    projection operator raises: the cached array is compared with [None]
    and has no truth value. *)
Lemma get_projection_operator_twice ext g s (i : nat) :
  good ext g s -> valid_table g -> valid_matrices (_nnodes s) g ->
  (i < Spec.numIRRs g)%nat -> slot s i = None -> (2 <= _nnodes s)%nat ->
  exists l s1 s2,
    get_projection_operator ext (Z.of_nat i) s = (Ok l, s1) /\
    get_projection_operator ext (Z.of_nat i) s1 = (Raise ValueError, s2).
Proof.
  intros Hgood Htable Hmat Hi Hslot Hn.
  destruct (get_projection_operator_run ext g Htable s (Z.of_nat i) Hgood Hmat)
    as (r & s1 & E1 & G1 & F1 & _ & _ & Hcase).
  cbv zeta in Hcase. rewrite (py_index_nat _ _ Hi), Hslot in Hcase.
  destruct Hcase as (-> & Hheap & Hprojs).
  assert (Hn1 : _nnodes s1 = _nnodes s) by apply (frame_nnodes _ _ F1).
  destruct (get_projection_operator_run ext g Htable s1 (Z.of_nat i) G1
              ltac:(rewrite Hn1; exact Hmat))
    as (r & s2 & E2 & _ & _ & _ & _ & Hcase).
  cbv zeta in Hcase. rewrite (py_index_nat _ _ Hi) in Hcase.
  assert (Hslot1 : slot s1 i = Some (length (heap s))).
  { unfold slot. rewrite Hprojs. cbn.
    rewrite list_lookup_insert_eq; [reflexivity|].
    pose proof (good_slots _ _ _ G1 _ Hprojs) as Hlen.
    rewrite length_insert in Hlen. lia. }
  rewrite Hslot1, Hheap, list_lookup_middle in Hcase by reflexivity.
  rewrite (ndarray_eq_None_square _ (_nnodes s)) in Hcase;
    [| apply projection_shape; assumption | exact Hn].
  destruct Hcase as (_ & _ & ->).
  exists (length (heap s)), s1, s2. split; assumption.
Qed.

(** So does the second request for the transformation operator, as soon
    as the cached matrix has two entries or more; a matrix of at most one
    entry is copied and returned. *)
Lemma get_transformation_operator_cached ext s l a :
  _transformation_operator s = Some l -> heap s !! l = Some a ->
  get_transformation_operator ext s
  = match ndarray_eq_None a with
    | Ok _ => (Ok (length (heap s)), set_heap (heap s ++ [a]) s)
    | Raise e => (Raise e, s)
    end.
Proof.
  intros Hl Ha. unfold get_transformation_operator, transformation_is_None.
  step. rewrite Hl. rewrite ?bind_assoc. rewrite (bind_deref _ a) by exact Ha.
  destruct (ndarray_eq_None a) as [b|e] eqn:Eb.
  - apply ndarray_eq_None_false in Eb. subst b.
    step. step. step. rewrite Hl. rewrite (bind_deref _ a) by exact Ha.
    reflexivity.
  - reflexivity.
Qed.

(** C6, at the complete graph on two nodes: the first
    [get_projection_operator(0)] returns the operator, the second one
    raises [ValueError] instead of returning the cached operator. *)
Theorem second_projection_call_raises :
  fst (get_projection_operator K2_ext 0 K2_network) = Ok 1%nat /\
  fst (get_projection_operator K2_ext 0
         (snd (get_projection_operator K2_ext 0 K2_network))) = Raise ValueError.
Proof. split; vm_compute; reflexivity. Qed.

(** Equality of two evaluated values that hold rationals: the fractions
    are compared, whatever the proofs that they are reduced. *)
Ltac qc_eq :=
  repeat match goal with
         | |- @eq Qc _ _ => apply Qc_is_canon; reflexivity
         | |- (_, _) = (_, _) => f_equal
         | |- _ :: _ = _ :: _ => f_equal
         | |- Some _ = Some _ => f_equal
         | |- mkarray _ _ = mkarray _ _ => f_equal
         | |- _ => reflexivity
         end.

(** ** References handed to the caller *)

(** [get_adjacency_matrix] returns a new array: a write through the
    reference returned leaves the object's own matrix as it was. *)
Lemma get_adjacency_matrix_copy s l0 a b :
  _adjmat s = Some l0 -> heap s !! l0 = Some a ->
  exists l s',
    get_adjacency_matrix s = (Ok l, s') /\ heap s' !! l = Some a /\
    _adjmat (caller_write l b s') = Some l0 /\
    heap (caller_write l b s') !! l0 = Some a.
Proof.
  intros Hadj Ha. unfold get_adjacency_matrix. step. rewrite Hadj.
  rewrite (bind_deref _ a) by exact Ha.
  exists (length (heap s)), (set_heap (heap s ++ [a]) s).
  split; [reflexivity|]. cbn.
  pose proof (lookup_lt_Some _ _ _ Ha) as Hlt.
  split; [apply list_lookup_middle; reflexivity|]. split; [exact Hadj|].
  rewrite list_lookup_insert_ne by lia.
  rewrite lookup_app_l by exact Hlt. exact Ha.
Qed.

(** [get_projection_operator] returns the reference it has just stored in
    its slot. *)
Lemma get_projection_operator_returns_slot ext g s (i : nat) :
  good ext g s -> valid_table g -> valid_matrices (_nnodes s) g ->
  (i < Spec.numIRRs g)%nat -> slot s i = None ->
  exists l s',
    get_projection_operator ext (Z.of_nat i) s = (Ok l, s') /\
    slot s' i = Some l /\
    forall b, heap (caller_write l b s') !! l = Some b /\
              slot (caller_write l b s') i = Some l.
Proof.
  intros Hgood Htable Hmat Hi Hslot.
  destruct (get_projection_operator_run ext g Htable s (Z.of_nat i) Hgood Hmat)
    as (r & s1 & E1 & G1 & F1 & _ & _ & Hcase).
  cbv zeta in Hcase. rewrite (py_index_nat _ _ Hi), Hslot in Hcase.
  destruct Hcase as (-> & Hheap & Hprojs).
  assert (Hslot1 : slot s1 i = Some (length (heap s))).
  { unfold slot. rewrite Hprojs. cbn.
    rewrite list_lookup_insert_eq; [reflexivity|].
    pose proof (good_slots _ _ _ G1 _ Hprojs) as Hlen.
    rewrite length_insert in Hlen. lia. }
  exists (length (heap s)), s1. split; [exact E1|]. split; [exact Hslot1|].
  intros b. split; [|exact Hslot1].
  cbn. rewrite Hheap. apply list_lookup_insert_eq.
  rewrite length_app. cbn. lia.
Qed.

(** C9, at the complete graph on two nodes: the reference
    [get_projection_operator(0)] returns is the one the object keeps in
    slot 0, so an array written through it is what the object holds
    afterwards. *)
Theorem projection_operator_shares_cache :
  let r := get_projection_operator K2_ext 0 K2_network in
  fst r = Ok 1%nat /\ slot (snd r) 0 = Some 1%nat /\
  heap (snd r) !! 1%nat = Some (Spec.projection_array K2_group 2 0) /\
  heap (caller_write 1 (np_zeros 2 2) (snd r)) !! 1%nat = Some (np_zeros 2 2) /\
  slot (caller_write 1 (np_zeros 2 2) (snd r)) 0 = Some 1%nat /\
  np_zeros 2 2 <> Spec.projection_array K2_group 2 0.
Proof.
  cbv zeta. repeat split; try (vm_compute; reflexivity).
  - vm_compute. qc_eq.
  - intros H. discriminate (f_equal arr_dtype H).
Qed.

(** ** The scenarios of the specification *)

Example trivial_degeneracies :
  fst (get_IRR_degeneracies trivial_ext trivial_network) = Ok [1].
Proof. vm_compute. reflexivity. Qed.

Example trivial_projection :
  Spec.projection trivial_group 1 0 = [[cone]].
Proof. vm_compute. reflexivity. Qed.

Example trivial_transformation :
  Spec.transformation trivial_ext trivial_group 1 = mkarray complex128 [[cone]].
Proof. vm_compute. reflexivity. Qed.

Example K2_degeneracies :
  fst (get_IRR_degeneracies K2_ext K2_network) = Ok [1; 1].
Proof. vm_compute. reflexivity. Qed.

Example K2_projections :
  Spec.projection K2_group 2 0
  = [[of_real (Q2Qc (1 # 2)); of_real (Q2Qc (1 # 2))];
     [of_real (Q2Qc (1 # 2)); of_real (Q2Qc (1 # 2))]] /\
  Spec.projection K2_group 2 1
  = [[of_real (Q2Qc (1 # 2)); of_real (Q2Qc (-1 # 2))];
     [of_real (Q2Qc (-1 # 2)); of_real (Q2Qc (1 # 2))]].
Proof. split; vm_compute; reflexivity. Qed.

(** ** Further properties of the methods *)

(** *** The adjacency matrix, set and read back *)

(** X1. Whatever the object held, a matrix that is set is read back as it
    was given, in a new array; and after the caller has overwritten that
    array, the next reading still gives the matrix that was set. *)
Theorem set_then_get_adjacency_matrix a b s :
  exists s1 l s2 l' s3,
    _set_adjacency_matrix (Some a) s = (Ok tt, s1) /\
    get_adjacency_matrix s1 = (Ok l, s2) /\
    heap s2 !! l = Some a /\ _adjmat s2 <> Some l /\
    get_adjacency_matrix (caller_write l b s2) = (Ok l', s3) /\
    heap s3 !! l' = Some a /\ l' <> l.
Proof.
  eexists _, _, _, _, _. split; [reflexivity|].
  cbn [_set_adjacency_matrix]. unfold get_adjacency_matrix at 1.
  rewrite bind_gets. cbn [_adjmat set_adjmat snd].
  rewrite (bind_deref _ a) by (cbn; apply list_lookup_middle; reflexivity).
  split; [reflexivity|]. cbn.
  split; [apply list_lookup_middle; reflexivity|].
  split; [rewrite length_app; cbn; intros [=]; lia|].
  rewrite (bind_deref _ a).
  2:{ cbn. rewrite list_lookup_insert_ne by (rewrite length_app; cbn; lia).
      rewrite <- app_assoc. apply list_lookup_middle. reflexivity. }
  split; [reflexivity|]. cbn. split.
  - apply list_lookup_middle. reflexivity.
  - rewrite length_insert, !length_app. cbn. lia.
Qed.

(** X2. Setting [None] fails, and only after the object has been
    cleared: the matrix, the node count and each of the nine cached
    fields are reset, the store is untouched, and the object answers
    neither for its matrix nor for its orbits. *)
Theorem set_None_destroys_state ext s :
  exists s1,
    _set_adjacency_matrix None s = (Raise AttributeError, s1) /\
    _adjmat s1 = None /\ _nnodes s1 = 0%nat /\ _group s1 = None /\
    _orbits s1 = None /\ _permutation_matrices s1 = None /\
    _conjugacy_classes s1 = None /\ _conjugacy_classes_matrices s1 = None /\
    _character_table s1 = None /\ _IRR_degeneracies s1 = None /\
    _projection_operators s1 = None /\ _transformation_operator s1 = None /\
    heap s1 = heap s /\
    get_adjacency_matrix s1 = (Raise AttributeError, s1) /\
    get_orbits ext s1 = (Raise AttributeError, s1).
Proof. eexists. repeat split. Qed.

(** *** The group and its orbits *)

(** X3. Sage is asked once for the group and the orbits together,
    whichever is requested first: after [get_orbits] the group is cached
    and [get_automorphism_group] makes no call, and after
    [get_automorphism_group] the orbits are cached and [get_orbits] makes
    no call. *)
Theorem group_and_orbits_together ext s l a g orb :
  _adjmat s = Some l -> heap s !! l = Some a ->
  sage_automorphism_group ext a = Some (g, orb) ->
  _group s = None -> _orbits s = None ->
  (exists s1,
     get_orbits ext s = (Ok orb, s1) /\
     calls s1 = CallAutomorphismGroup :: calls s /\
     get_automorphism_group ext s1 = (Ok g, s1)) /\
  (exists s1 s2,
     get_automorphism_group ext s = (Ok g, s1) /\
     calls s1 = CallAutomorphismGroup :: calls s /\
     get_orbits ext s1 = (Ok orb, s2) /\ calls s2 = calls s1).
Proof.
  intros Hl Ha Hsage Hg Ho.
  pose proof (lookup_lt_Some _ _ _ Ha) as Hlt.
  split.
  - unfold get_orbits, get_adjacency_matrix.
    rewrite ?bind_assoc, bind_gets, Hl. rewrite ?bind_assoc.
    rewrite (bind_deref _ a) by exact Ha.
    rewrite bind_alloc, bind_gets. cbn [_orbits set_heap]. rewrite Ho.
    rewrite ?bind_assoc, bind_gets. cbn [_adjmat set_heap]. rewrite Hl.
    rewrite ?bind_assoc.
    rewrite (bind_deref _ a) by (cbn; rewrite lookup_app_l by exact Hlt; exact Ha).
    rewrite bind_alloc.
    rewrite (bind_deref _ a)
      by (cbn; rewrite length_app; apply list_lookup_middle; rewrite length_app; reflexivity).
    rewrite bind_modify, Hsage, bind_modify.
    eexists. split; [reflexivity|]. split; reflexivity.
  - unfold get_automorphism_group at 1.
    rewrite bind_gets, Hg, bind_gets, Hl.
    rewrite (bind_deref _ a) by exact Ha.
    rewrite bind_modify, Hsage, bind_modify.
    eexists _, _. split; [reflexivity|]. split; [reflexivity|].
    unfold get_orbits, get_adjacency_matrix.
    rewrite ?bind_assoc, bind_gets. cbn [_adjmat set_group log_calls]. rewrite Hl.
    rewrite ?bind_assoc.
    rewrite (bind_deref _ a) by exact Ha.
    rewrite bind_alloc, bind_gets. cbn.
    split; reflexivity.
Qed.

Lemma group_and_orbits_together_K2 :
  _adjmat K2_network = Some 0%nat /\ heap K2_network !! 0%nat = Some K2_adjmat /\
  sage_automorphism_group K2_ext K2_adjmat = Some (K2_group, [[0%nat; 1%nat]]) /\
  _group K2_network = None /\ _orbits K2_network = None /\
  (exists s1,
     get_orbits K2_ext K2_network = (Ok [[0%nat; 1%nat]], s1) /\
     calls s1 = CallAutomorphismGroup :: calls K2_network /\
     get_automorphism_group K2_ext s1 = (Ok K2_group, s1)) /\
  (exists s1 s2,
     get_automorphism_group K2_ext K2_network = (Ok K2_group, s1) /\
     calls s1 = CallAutomorphismGroup :: calls K2_network /\
     get_orbits K2_ext s1 = (Ok [[0%nat; 1%nat]], s2) /\ calls s2 = calls s1).
Proof.
  split; [reflexivity|]. split; [reflexivity|]. split; [reflexivity|].
  split; [reflexivity|]. split; [reflexivity|].
  apply (group_and_orbits_together K2_ext K2_network 0%nat K2_adjmat K2_group
           [[0%nat; 1%nat]]); reflexivity.
Defined.



(** *** Values that are cached as lists or Sage objects *)

(** X5. The character table, the conjugacy classes and their matrices
    are each fetched once: a second request returns the same value and
    leaves the object, the log of calls included, exactly as it was. *)
Theorem sage_data_fetched_once ext g s :
  oracle_good ext g s ->
  (exists s1, get_character_table ext s = (Ok (character_table g), s1) /\
              get_character_table ext s1 = (Ok (character_table g), s1)) /\
  (exists s1, get_conjugacy_classes ext s = (Ok (conjugacy_classes g), s1) /\
              get_conjugacy_classes ext s1 = (Ok (conjugacy_classes g), s1)) /\
  (exists s1, get_conjugacy_classes_matrices ext s = (Ok (conjugacy_classes g), s1) /\
              get_conjugacy_classes_matrices ext s1 = (Ok (conjugacy_classes g), s1)).
Proof.
  intros Hgood. split; [|split].
  - destruct (get_character_table_run ext g s Hgood) as (s1 & E & _ & _ & _ & _ & Hc).
    exists s1. split; [exact E|]. apply get_character_table_cached. exact Hc.
  - destruct (get_conjugacy_classes_run ext g s Hgood) as (s1 & E & _ & _ & _ & _ & Hc).
    exists s1. split; [exact E|]. apply get_conjugacy_classes_cached. exact Hc.
  - destruct (get_conjugacy_classes_matrices_run ext g s Hgood)
      as (s1 & E & G1 & _ & _ & _).
    exists s1. split; [exact E|].
    destruct (get_conjugacy_classes_matrices_run ext g s1 G1) as (s2 & E2 & _).
    assert (Hcached : is_Some (_conjugacy_classes s1) /\
                      is_Some (_conjugacy_classes_matrices s1)).
    { revert E. unfold get_conjugacy_classes_matrices.
      rewrite bind_gets.
      destruct (_conjugacy_classes s) as [c|] eqn:Ec.
      - rewrite bind_ret, bind_gets.
        destruct (_conjugacy_classes_matrices s) as [m|] eqn:Em.
        + intros E; apply (f_equal snd) in E; unfold ret in E; cbn [snd] in E; subst s1. rewrite Ec, Em. split; eexists; reflexivity.
        + rewrite !bind_modify. intros E; apply (f_equal snd) in E; unfold ret in E; cbn [snd] in E; subst s1. cbn. rewrite Ec.
          split; eexists; reflexivity.
      - destruct (get_conjugacy_classes_run ext g s Hgood)
          as (s0 & E0 & _ & _ & _ & _ & Hc0).
        rewrite (bind_ok _ _ _ _ _ E0), bind_gets.
        destruct (_conjugacy_classes_matrices s0) as [m|] eqn:Em.
        + intros E; apply (f_equal snd) in E; unfold ret in E; cbn [snd] in E; subst s1. rewrite Hc0, Em. split; eexists; reflexivity.
        + rewrite !bind_modify. intros E; apply (f_equal snd) in E; unfold ret in E; cbn [snd] in E; subst s1. cbn. rewrite Hc0.
          split; eexists; reflexivity. }
    destruct Hcached as ([c Hc] & [m Hm]).
    revert E2. unfold get_conjugacy_classes_matrices.
    rewrite bind_gets, Hc, bind_ret, bind_gets, Hm. unfold ret. intros E2.
    inversion E2; subst; reflexivity.
Qed.

Lemma oracle_good_K2 : oracle_good K2_ext K2_group K2_network.
Proof.
  constructor;
    [ eexists _, _, _; repeat split; reflexivity
    | left; reflexivity | left; reflexivity | left; reflexivity | left; reflexivity ].
Defined.

Lemma sage_data_fetched_once_K2 :
  oracle_good K2_ext K2_group K2_network /\
  (exists s1, get_character_table K2_ext K2_network = (Ok (character_table K2_group), s1) /\
              get_character_table K2_ext s1 = (Ok (character_table K2_group), s1)) /\
  (exists s1, get_conjugacy_classes K2_ext K2_network
              = (Ok (conjugacy_classes K2_group), s1) /\
              get_conjugacy_classes K2_ext s1 = (Ok (conjugacy_classes K2_group), s1)) /\
  (exists s1, get_conjugacy_classes_matrices K2_ext K2_network
              = (Ok (conjugacy_classes K2_group), s1) /\
              get_conjugacy_classes_matrices K2_ext s1
              = (Ok (conjugacy_classes K2_group), s1)).
Proof.
  split; [exact oracle_good_K2|].
  apply (sage_data_fetched_once K2_ext K2_group K2_network). exact oracle_good_K2.
Defined.



(** X7. [get_numIRRs] is the length of the list of degeneracies and the
    number of conjugacy classes. *)
Theorem get_numIRRs_counts ext g s :
  good ext g s -> valid_table g ->
  exists n s1 d s2,
    get_numIRRs ext s = (Ok n, s1) /\
    get_IRR_degeneracies ext s1 = (Ok d, s2) /\
    length d = n /\ n = length (conjugacy_classes g).
Proof.
  intros Hgood Htable. unfold get_numIRRs.
  destruct (get_character_table_run ext g s (good_oracle _ _ _ Hgood))
    as (s1 & E1 & G1 & F1 & (A1 & A1' & A1'') & D1 & _).
  rewrite (bind_ok _ _ _ _ _ E1).
  destruct (first_row g Htable) as (row & Erow & Hrow).
  rewrite Erow, bind_lift_ok.
  pose proof (good_oracle_step ext g s s1 Hgood G1 D1 A1') as Hgood1.
  destruct (get_IRR_degeneracies_run ext g Htable s1 Hgood1) as (s2 & E2 & _).
  exists (length row), s1, (Spec.degeneracies g), s2.
  split; [reflexivity|]. split; [exact E2|]. split.
  - unfold Spec.degeneracies. rewrite length_map, length_seq. symmetry. exact Hrow.
  - rewrite Hrow. unfold Spec.numIRRs. symmetry. apply (valid_classes _ Htable).
Qed.

Lemma get_numIRRs_counts_K2 :
  good K2_ext K2_group K2_network /\ valid_table K2_group /\
  exists n s1 d s2,
    get_numIRRs K2_ext K2_network = (Ok n, s1) /\
    get_IRR_degeneracies K2_ext s1 = (Ok d, s2) /\
    length d = n /\ n = length (conjugacy_classes K2_group).
Proof.
  split; [example_good|]. split; [example_valid_table|].
  apply (get_numIRRs_counts K2_ext K2_group K2_network);
    [example_good | example_valid_table].
Defined.

(** *** A new adjacency matrix *)

(** X8. Whatever the object had cached, once a matrix is set the
    degeneracies returned are those of the group of the new matrix, and
    no projection operator or transformation operator of the old one is
    left. *)
Theorem set_adjacency_matrix_invalidates ext g orb a s :
  sage_automorphism_group ext a = Some (g, orb) -> valid_table g ->
  exists s1 s2,
    _set_adjacency_matrix (Some a) s = (Ok tt, s1) /\
    (forall i, slot s1 i = None) /\ _transformation_operator s1 = None /\
    get_IRR_degeneracies ext s1 = (Ok (Spec.degeneracies g), s2).
Proof.
  intros Hsage Htable.
  destruct (set_adjacency_matrix_good ext g orb a s Hsage)
    as (s1 & E1 & G1 & _ & Hslots & Ht).
  destruct (get_IRR_degeneracies_run ext g Htable s1 G1) as (s2 & E2 & _).
  exists s1, s2. auto.
Qed.

Lemma set_adjacency_matrix_invalidates_K2 :
  sage_automorphism_group K2_ext K2_adjmat = Some (K2_group, [[0%nat; 1%nat]]) /\
  valid_table K2_group /\
  exists s1 s2,
    _set_adjacency_matrix (Some K2_adjmat) trivial_network = (Ok tt, s1) /\
    (forall i, slot s1 i = None) /\ _transformation_operator s1 = None /\
    get_IRR_degeneracies K2_ext s1 = (Ok (Spec.degeneracies K2_group), s2).
Proof.
  split; [reflexivity|]. split; [example_valid_table|].
  apply (set_adjacency_matrix_invalidates K2_ext K2_group [[0%nat; 1%nat]]
           K2_adjmat trivial_network); [reflexivity | example_valid_table].
Defined.

(** *** Projection operators, one after the other *)

(** X9. The operators of two different IRRs do not disturb each other:
    after both have been requested, each slot holds its own array, and
    the first one is still the operator of its IRR. *)
Theorem projection_operators_independent ext g s (i k : nat) :
  good ext g s -> valid_table g -> valid_matrices (_nnodes s) g ->
  (i < Spec.numIRRs g)%nat -> (k < Spec.numIRRs g)%nat -> i <> k ->
  slot s i = None -> slot s k = None ->
  exists li lk s1 s2,
    get_projection_operator ext (Z.of_nat i) s = (Ok li, s1) /\
    get_projection_operator ext (Z.of_nat k) s1 = (Ok lk, s2) /\
    li <> lk /\
    slot s2 i = Some li /\ slot s2 k = Some lk /\
    heap s2 !! li = Some (Spec.projection_array g (_nnodes s) i) /\
    heap s2 !! lk = Some (Spec.projection_array g (_nnodes s) k).
Proof.
  intros Hgood Htable Hmat Hi Hk Hik Hsi Hsk.
  destruct (get_projection_operator_run ext g Htable s (Z.of_nat i) Hgood Hmat)
    as (r & s1 & E1 & G1 & F1 & _ & _ & Hcase).
  cbv zeta in Hcase. rewrite (py_index_nat _ _ Hi), Hsi in Hcase.
  destruct Hcase as (-> & Hheap1 & Hprojs1).
  assert (Hn1 : _nnodes s1 = _nnodes s) by apply (frame_nnodes _ _ F1).
  assert (Hlen1 : length (default (repeat None (Spec.numIRRs g)) (_projection_operators s))
                  = Spec.numIRRs g).
  { pose proof (good_slots _ _ _ G1 _ Hprojs1) as Hlen.
    rewrite length_insert in Hlen. exact Hlen. }
  assert (Hsi1 : slot s1 i = Some (length (heap s))).
  { unfold slot. rewrite Hprojs1. cbn.
    rewrite list_lookup_insert_eq by lia. reflexivity. }
  assert (Hsk1 : slot s1 k = None).
  { unfold slot. rewrite Hprojs1. cbn.
    rewrite list_lookup_insert_ne by exact Hik.
    rewrite slot_default. exact Hsk. }
  destruct (get_projection_operator_run ext g Htable s1 (Z.of_nat k) G1
              ltac:(rewrite Hn1; exact Hmat))
    as (r & s2 & E2 & G2 & F2 & _ & _ & Hcase).
  cbv zeta in Hcase. rewrite (py_index_nat _ _ Hk), Hsk1, Hn1 in Hcase.
  destruct Hcase as (-> & Hheap2 & Hprojs2).
  exists (length (heap s)), (length (heap s1)), s1, s2.
  split; [exact E1|]. split; [exact E2|].
  split; [rewrite Hheap1, length_app; cbn; lia|].
  split; [apply (frame_slots _ _ F2); exact Hsi1|].
  split.
  - unfold slot. rewrite Hprojs2. cbn.
    rewrite list_lookup_insert_eq; [reflexivity|].
    rewrite Hprojs1. cbn. rewrite length_insert. lia.
  - split.
    + rewrite Hheap2, Hheap1, <- app_assoc. apply list_lookup_middle. reflexivity.
    + rewrite Hheap2. apply list_lookup_middle. reflexivity.
Qed.

Lemma projection_operators_independent_K2 :
  good K2_ext K2_group K2_network /\ valid_table K2_group /\
  valid_matrices (_nnodes K2_network) K2_group /\
  (0 < Spec.numIRRs K2_group)%nat /\ (1 < Spec.numIRRs K2_group)%nat /\
  0%nat <> 1%nat /\ slot K2_network 0 = None /\ slot K2_network 1 = None /\
  exists li lk s1 s2,
    get_projection_operator K2_ext (Z.of_nat 0) K2_network = (Ok li, s1) /\
    get_projection_operator K2_ext (Z.of_nat 1) s1 = (Ok lk, s2) /\
    li <> lk /\
    slot s2 0 = Some li /\ slot s2 1 = Some lk /\
    heap s2 !! li = Some (Spec.projection_array K2_group (_nnodes K2_network) 0) /\
    heap s2 !! lk = Some (Spec.projection_array K2_group (_nnodes K2_network) 1).
Proof.
  split; [example_good|]. split; [example_valid_table|].
  split; [example_valid_matrices|]. split; [cbn; lia|]. split; [cbn; lia|].
  split; [lia|]. split; [reflexivity|]. split; [reflexivity|].
  apply (projection_operators_independent K2_ext K2_group K2_network 0 1);
    [ example_good | example_valid_table | example_valid_matrices
    | cbn; lia | cbn; lia | lia | reflexivity | reflexivity ].
Defined.

(** X10. On a network of two nodes or more, requesting the projection
    operator of IRR 0 first makes a later [get_transformation_operator]
    fail: when the loop reaches IRR 0, whose degeneracy is not zero, the
    cached array is compared with [None] and [ValueError] is raised; no
    transformation operator is stored. *)
Theorem projection_then_transformation_raises ext g s :
  good ext g s -> valid_table g -> valid_matrices (_nnodes s) g ->
  (2 <= _nnodes s)%nat -> Spec.degeneracy g 0 <> 0 ->
  slot s 0 = None -> _transformation_operator s = None ->
  exists l s1 s2,
    get_projection_operator ext 0 s = (Ok l, s1) /\
    get_transformation_operator ext s1 = (Raise ValueError, s2) /\
    _transformation_operator s2 = None.
Proof.
  intros Hgood Htable Hmat Hn Hdeg Hslot Hnone.
  assert (H0 : (0 < Spec.numIRRs g)%nat).
  { unfold Spec.numIRRs. destruct (character_table g) eqn:E; cbn; [|lia].
    destruct Htable as [_ _ Hne _]. congruence. }
  destruct (get_projection_operator_run ext g Htable s (Z.of_nat 0) Hgood Hmat)
    as (r & s1 & E1 & G1 & F1 & T1 & _ & Hcase).
  cbv zeta in Hcase. rewrite (py_index_nat _ _ H0), Hslot in Hcase.
  destruct Hcase as (-> & Hheap1 & Hprojs1).
  exists (length (heap s)), s1.
  assert (Hn1 : _nnodes s1 = _nnodes s) by apply (frame_nnodes _ _ F1).
  assert (Hs1 : slot s1 0 = Some (length (heap s))).
  { unfold slot. rewrite Hprojs1. cbn.
    rewrite list_lookup_insert_eq; [reflexivity|].
    pose proof (good_slots _ _ _ G1 _ Hprojs1) as Hlen.
    rewrite length_insert in Hlen. lia. }
  unfold get_transformation_operator, transformation_is_None.
  step. rewrite T1, Hnone. step. cbv iota.
  destruct (get_IRR_degeneracies_run ext g Htable s1 G1)
    as (s2 & E2 & G2 & F2 & (A2 & A2' & A2'') & D2).
  run E2.
  assert (Hlen : length (Spec.degeneracies g) = Spec.numIRRs g).
  { unfold Spec.degeneracies. rewrite length_map, length_seq. reflexivity. }
  rewrite Hlen.
  destruct (Spec.numIRRs g) as [|n] eqn:En; [lia|].
  cbn [seq transformation_loop]. unfold transformation_step.
  destruct (get_character_table_run ext g s2 (good_oracle _ _ _ G2))
    as (s3 & E3 & G3 & F3 & (A3 & A3' & A3'') & D3 & _).
  run E3.
  assert (Hidx : py_index (Spec.numIRRs g) (Z.of_nat 0) = Some 0%nat)
    by (apply py_index_nat; lia).
  destruct (sage_entry_dimension g Htable (Z.of_nat 0) 0 Hidx) as (row & _ & _ & Eentry).
  rewrite Eentry. step.
  rewrite (degeneracies_lookup g 0) by lia. step.
  destruct (Z.eqb_neq (Spec.degeneracy g 0) 0) as [_ Hneq].
  rewrite (Hneq Hdeg).
  pose proof (good_oracle_step ext g s2 s3 G2 G3 D3 A3') as Hgood3.
  assert (Hn3 : _nnodes s3 = _nnodes s).
  { rewrite (frame_nnodes _ _ F3), (frame_nnodes _ _ F2). exact Hn1. }
  destruct (get_projection_operator_run ext g Htable s3 (Z.of_nat 0) Hgood3
              ltac:(rewrite Hn3; exact Hmat))
    as (r & s4 & E4 & G4 & F4 & T4 & _ & Hcase).
  cbv zeta in Hcase. rewrite Hidx in Hcase.
  assert (Hs3 : slot s3 0 = Some (length (heap s))).
  { unfold slot. rewrite A3', A2'. exact Hs1. }
  rewrite Hs3, A3, A2, Hheap1, list_lookup_middle in Hcase by reflexivity.
  rewrite (ndarray_eq_None_square _ (_nnodes s)) in Hcase;
    [| apply projection_shape; [assumption | assumption | rewrite En; lia] | exact Hn].
  destruct Hcase as (_ & _ & ->).
  rewrite ?bind_assoc. rewrite (bind_raise _ _ _ _ _ E4).
  exists s4. split; [exact E1|]. split; [reflexivity|].
  rewrite T4, A3'', A2'', T1. exact Hnone.
Qed.

Lemma projection_then_transformation_raises_K2 :
  good K2_ext K2_group K2_network /\ valid_table K2_group /\
  valid_matrices (_nnodes K2_network) K2_group /\
  (2 <= _nnodes K2_network)%nat /\ Spec.degeneracy K2_group 0 <> 0 /\
  slot K2_network 0 = None /\ _transformation_operator K2_network = None /\
  exists l s1 s2,
    get_projection_operator K2_ext 0 K2_network = (Ok l, s1) /\
    get_transformation_operator K2_ext s1 = (Raise ValueError, s2) /\
    _transformation_operator s2 = None.
Proof.
  split; [example_good|]. split; [example_valid_table|].
  split; [example_valid_matrices|]. split; [cbn; lia|].
  split; [vm_compute; discriminate|]. split; [reflexivity|]. split; [reflexivity|].
  apply (projection_then_transformation_raises K2_ext K2_group K2_network);
    [ example_good | example_valid_table | example_valid_matrices | cbn; lia
    | vm_compute; discriminate | reflexivity | reflexivity ].
Defined.

(** *** The transformation operator *)

(** X11. [get_transformation_operator] returns a copy: the array handed
    to the caller is not the one the object keeps, and an array written
    through the reference returned leaves the cached operator as it
    was. *)
Theorem get_transformation_operator_returns_copy ext g s b :
  good ext g s -> valid_table g -> valid_matrices (_nnodes s) g ->
  _transformation_operator s = None -> (forall i, slot s i = None) ->
  Spec.svd_defined ext g (_nnodes s) ->
  forallb (Spec.rank_consistent ext g (_nnodes s)) (seq 0 (Spec.numIRRs g)) = true ->
  exists l l0 s',
    get_transformation_operator ext s = (Ok l, s') /\
    _transformation_operator s' = Some l0 /\ l <> l0 /\
    _transformation_operator (caller_write l b s') = Some l0 /\
    heap (caller_write l b s') !! l0 = Some (Spec.transformation ext g (_nnodes s)).
Proof.
  intros Hgood Htable Hmat Hnone Hslots Hsvd Hrank.
  destruct (get_transformation_operator_run ext g Htable s Hgood Hmat Hnone)
    as (r & s' & E & _ & _ & _ & Hcase).
  specialize (Hcase Hslots Hsvd). rewrite Hrank in Hcase.
  destruct Hcase as (l & l0 & -> & Ht & Hne & Hl0 & Hl).
  exists l, l0, s'. split; [exact E|]. split; [exact Ht|]. split; [exact Hne|].
  split; [exact Ht|]. cbn. rewrite list_lookup_insert_ne by exact Hne. exact Hl0.
Qed.

Lemma get_transformation_operator_returns_copy_trivial :
  good trivial_ext trivial_group trivial_network /\ valid_table trivial_group /\
  valid_matrices (_nnodes trivial_network) trivial_group /\
  _transformation_operator trivial_network = None /\
  (forall i, slot trivial_network i = None) /\
  Spec.svd_defined trivial_ext trivial_group (_nnodes trivial_network) /\
  forallb (Spec.rank_consistent trivial_ext trivial_group (_nnodes trivial_network))
          (seq 0 (Spec.numIRRs trivial_group)) = true /\
  exists l l0 s',
    get_transformation_operator trivial_ext trivial_network = (Ok l, s') /\
    _transformation_operator s' = Some l0 /\ l <> l0 /\
    _transformation_operator (caller_write l (np_zeros 1 1) s') = Some l0 /\
    heap (caller_write l (np_zeros 1 1) s') !! l0
    = Some (Spec.transformation trivial_ext trivial_group (_nnodes trivial_network)).
Proof.
  split; [example_good|]. split; [example_valid_table|].
  split; [example_valid_matrices|]. split; [reflexivity|].
  split; [intros [|i]; reflexivity|]. split; [example_svd_defined|].
  split; [vm_compute; reflexivity|].
  apply (get_transformation_operator_returns_copy trivial_ext trivial_group
           trivial_network (np_zeros 1 1));
    [ example_good | example_valid_table | example_valid_matrices | reflexivity
    | intros [|i]; reflexivity | example_svd_defined | vm_compute; reflexivity ].
Defined.

Lemma selected_rows_length VH : forall W rows,
  (length W <= length rows)%nat ->
  Z.of_nat (length (concat (zip_with
    (fun w row => if near_one w then [mkarray (arr_dtype VH) [row]] else [])
    W rows))) = Spec.R2 W.
Proof.
  unfold Spec.R2.
  induction W as [|w W IH]; intros rows Hlen; [reflexivity|].
  destruct rows as [|row rows]; [cbn in Hlen; lia|].
  cbn [zip_with concat List.filter]. rewrite length_app.
  specialize (IH rows ltac:(cbn in Hlen; lia)).
  rewrite <- (near_one_close_to_one w).
  destruct (near_one w); cbn [length]; lia.
Qed.

Lemma selected_rows_single VH : forall W rows,
  Forall (fun r => length (arr_rows r) = 1%nat)
    (concat (zip_with
       (fun w row => if near_one w then [mkarray (arr_dtype VH) [row]] else [])
       W rows)).
Proof.
  induction W as [|w W IH]; intros [|row rows]; cbn; try constructor.
  apply Forall_app. split; [|apply IH].
  destruct (near_one w); repeat constructor.
Qed.

Lemma np_array_rows (rows : list ndarray) :
  Forall (fun r => length (arr_rows r) = 1%nat) rows ->
  length (arr_rows (np_array rows)) = length rows.
Proof.
  unfold np_array. cbn [arr_rows].
  induction 1 as [|r rows Hr _ IH]; [reflexivity|].
  cbn [map concat length]. rewrite length_app, IH, Hr. reflexivity.
Qed.

(** X12. When every IRR passes the rank check, the matrix returned has
    as many rows as [total], the sum of [dimension_j * degeneracy_j] the
    loop accumulates. *)
Theorem transformation_operator_row_count ext g s :
  good ext g s -> valid_table g -> valid_matrices (_nnodes s) g ->
  _transformation_operator s = None -> (forall i, slot s i = None) ->
  Spec.svd_defined ext g (_nnodes s) ->
  forallb (Spec.rank_consistent ext g (_nnodes s)) (seq 0 (Spec.numIRRs g)) = true ->
  exists l s' T,
    get_transformation_operator ext s = (Ok l, s') /\
    heap s' !! l = Some T /\
    Z.of_nat (length (arr_rows T)) = total g.
Proof.
  intros Hgood Htable Hmat Hnone Hslots Hsvd Hrank.
  destruct (get_transformation_operator_run ext g Htable s Hgood Hmat Hnone)
    as (r & s' & E & _ & _ & _ & Hcase).
  specialize (Hcase Hslots Hsvd). rewrite Hrank in Hcase.
  destruct Hcase as (l & l0 & -> & _ & _ & _ & Hl).
  exists l, s', (Spec.transformation ext g (_nnodes s)).
  split; [exact E|]. split; [exact Hl|].
  unfold Spec.transformation, total.
  rewrite forallb_forall in Hrank.
  assert (Hin : forall j, In j (seq 0 (Spec.numIRRs g)) -> (j < Spec.numIRRs g)%nat)
    by (intros j Hj; apply in_seq in Hj; lia).
  revert Hrank Hin. generalize (seq 0 (Spec.numIRRs g)) as js.
  intros js Hrank Hin.
  assert (Hsingle : Forall (fun r => length (arr_rows r) = 1%nat)
                           (concat (map (Spec.irr_rows ext g (_nnodes s)) js))).
  { clear. induction js as [|j js IH]; cbn; [constructor|].
    apply Forall_app. split; [|exact IH].
    unfold Spec.irr_rows. destruct (Spec.degeneracy g j =? 0); [constructor|].
    destruct (la_svd ext _) as [[W VH]|]; [|constructor].
    apply selected_rows_single. }
  rewrite (np_array_rows _ Hsingle). clear Hsingle.
  induction js as [|j js IH]; [reflexivity|].
  cbn [map concat fold_right]. rewrite length_app, Nat2Z.inj_add.
  rewrite IH;
    [ | intros j' Hj'; apply Hrank; right; exact Hj'
      | intros j' Hj'; apply Hin; right; exact Hj' ].
  f_equal.
  specialize (Hrank j ltac:(left; reflexivity)).
  specialize (Hin j ltac:(left; reflexivity)).
  unfold Spec.rank_consistent in Hrank. unfold Spec.irr_rows.
  destruct (Spec.degeneracy g j =? 0) eqn:Edeg; [reflexivity|].
  cbn [orb] in Hrank.
  apply Z.eqb_neq in Edeg.
  destruct (Hsvd j Hin Edeg) as (W & VH & Esvd & Hlen).
  rewrite Esvd in *. apply Z.eqb_eq in Hrank. rewrite Hrank.
  apply selected_rows_length. exact Hlen.
Qed.

Lemma transformation_operator_row_count_trivial :
  good trivial_ext trivial_group trivial_network /\ valid_table trivial_group /\
  valid_matrices (_nnodes trivial_network) trivial_group /\
  _transformation_operator trivial_network = None /\
  (forall i, slot trivial_network i = None) /\
  Spec.svd_defined trivial_ext trivial_group (_nnodes trivial_network) /\
  forallb (Spec.rank_consistent trivial_ext trivial_group (_nnodes trivial_network))
          (seq 0 (Spec.numIRRs trivial_group)) = true /\
  exists l s' T,
    get_transformation_operator trivial_ext trivial_network = (Ok l, s') /\
    heap s' !! l = Some T /\
    Z.of_nat (length (arr_rows T)) = total trivial_group.
Proof.
  split; [example_good|]. split; [example_valid_table|].
  split; [example_valid_matrices|]. split; [reflexivity|].
  split; [intros [|i]; reflexivity|]. split; [example_svd_defined|].
  split; [vm_compute; reflexivity|].
  apply (transformation_operator_row_count trivial_ext trivial_group trivial_network);
    [ example_good | example_valid_table | example_valid_matrices | reflexivity
    | intros [|i]; reflexivity | example_svd_defined | vm_compute; reflexivity ].
Defined.

(** Reduces the fields of a state built by the setters. *)
Ltac fields :=
  cbn [_adjmat _nnodes _group _orbits _permutation_matrices _conjugacy_classes
       _conjugacy_classes_matrices _character_table _IRR_degeneracies
       _projection_operators _transformation_operator heap calls
       set_adjmat set_group set_permutation_matrices set_conjugacy_classes
       set_conjugacy_classes_matrices set_character_table set_IRR_degeneracies
       set_projection_operators set_transformation_operator set_heap log_calls].

(** *** When Sage fails *)



(** *** The calls made to Sage *)

(** X14. Starting with nothing cached, the degeneracies cost exactly one
    call for the group, one for the character table, one for the
    conjugacy classes and one list per class, in this order, and no call
    to LAPACK. *)
Theorem degeneracies_sage_calls ext g s :
  oracle_good ext g s -> valid_table g ->
  _group s = None -> _character_table s = None -> _conjugacy_classes s = None ->
  _conjugacy_classes_matrices s = None -> _IRR_degeneracies s = None ->
  exists s',
    get_IRR_degeneracies ext s = (Ok (Spec.degeneracies g), s') /\
    calls s' = map (fun _ => CallConjugacyClassList) (conjugacy_classes g)
               ++ [CallConjugacyClasses; CallCharacterTable; CallAutomorphismGroup]
               ++ calls s /\
    saturated s'.
Proof.
  intros Hgood Htable Hg Ht Hc Hm Hd.
  destruct Hgood as [Hadj _ _ _ _]. destruct Hadj as (l & a & orb & Hl & Ha & Hsage).
  destruct (first_row g Htable) as (row & Erow & Hrow).
  unfold get_IRR_degeneracies, get_character_table, get_conjugacy_classes_matrices,
    get_conjugacy_classes, get_automorphism_group.
  repeat (rewrite ?bind_assoc;
          first [ rewrite bind_gets | rewrite bind_modify | rewrite bind_ret
                | rewrite bind_lift_ok | rewrite (bind_deref _ a) by (cbn; exact Ha) ];
          cbv beta; fields; rewrite ?Hd, ?Ht, ?Hg, ?Hl, ?Hc, ?Hm, ?Hsage, ?Erow;
          cbv iota).
  rewrite Hrow.
  rewrite ?bind_assoc.
  match goal with
  | |- context [bind (degeneracies_loop _ _ _ _ _) _ ?st] =>
      rewrite (bind_ok _ _ _ _ _ (degeneracies_loop_run g Htable
                 (seq 0 (Spec.numIRRs g)) [] st
                 ltac:(intros i Hi; apply in_seq in Hi; lia) eq_refl))
  end.
  rewrite bind_gets. cbn [_IRR_degeneracies set_IRR_degeneracies app].
  eexists. split; [reflexivity|]. cbn.
  split; [reflexivity|].
  repeat split; eexists; reflexivity.
Qed.

Lemma degeneracies_sage_calls_K2 :
  oracle_good K2_ext K2_group K2_network /\ valid_table K2_group /\
  _group K2_network = None /\ _character_table K2_network = None /\
  _conjugacy_classes K2_network = None /\
  _conjugacy_classes_matrices K2_network = None /\
  _IRR_degeneracies K2_network = None /\
  exists s',
    get_IRR_degeneracies K2_ext K2_network = (Ok (Spec.degeneracies K2_group), s') /\
    calls s' = map (fun _ => CallConjugacyClassList) (conjugacy_classes K2_group)
               ++ [CallConjugacyClasses; CallCharacterTable; CallAutomorphismGroup]
               ++ calls K2_network /\
    saturated s'.
Proof.
  split; [exact oracle_good_K2|]. split; [example_valid_table|].
  split; [reflexivity|]. split; [reflexivity|]. split; [reflexivity|].
  split; [reflexivity|]. split; [reflexivity|].
  apply (degeneracies_sage_calls K2_ext K2_group K2_network);
    [exact oracle_good_K2 | example_valid_table | reflexivity ..].
Defined.

Lemma bind_deref_None {B} l (f : ndarray -> M B) s :
  heap s !! l = None -> bind (deref l) f s = (Raise ValueError, s).
Proof. unfold bind, deref. intros ->. reflexivity. Qed.

Lemma get_conjugacy_classes_matrices_cached ext c m s :
  _conjugacy_classes s = Some c -> _conjugacy_classes_matrices s = Some m ->
  get_conjugacy_classes_matrices ext s = (Ok m, s).
Proof.
  intros Hc Hm. unfold get_conjugacy_classes_matrices.
  rewrite bind_gets, Hc, bind_ret, bind_gets, Hm. reflexivity.
Qed.

Lemma saturated_fields s s' :
  _group s' = _group s -> _character_table s' = _character_table s ->
  _conjugacy_classes s' = _conjugacy_classes s ->
  _conjugacy_classes_matrices s' = _conjugacy_classes_matrices s ->
  _IRR_degeneracies s' = _IRR_degeneracies s ->
  saturated s -> saturated s'.
Proof. unfold saturated. intros -> -> -> -> ->. auto. Qed.

(** With everything cached, a request for a projection operator
    fetches nothing. *)
Lemma get_projection_operator_calls ext j s :
  saturated s ->
  calls (snd (get_projection_operator ext j s)) = calls s /\
  saturated (snd (get_projection_operator ext j s)).
Proof.
  intros Hsat. pose proof Hsat as ([g Hg] & [t Ht] & [c Hc] & [m Hm] & [d Hd]).
  unfold get_projection_operator, projection_slot_is_None.
  rewrite (bind_ok _ _ _ _ _ (get_IRR_degeneracies_cached ext d s Hd)).
  repeat first
    [ rewrite bind_assoc
    | rewrite bind_gets | rewrite bind_modify | rewrite bind_ret | rewrite bind_alloc
    | rewrite bind_lift_ok | rewrite bind_lift_raise
    | progress (cbv beta iota; fields)
    | match goal with
      | |- context [bind (get_character_table ext) _ ?st] =>
          rewrite (bind_ok _ _ _ _ _
                     (get_character_table_cached ext t st ltac:(fields; exact Ht)))
      | |- context [bind (get_automorphism_group ext) _ ?st] =>
          rewrite (bind_ok _ _ _ _ _
                     (get_automorphism_group_cached ext g st ltac:(fields; exact Hg)))
      | |- context [bind (get_conjugacy_classes_matrices ext) _ ?st] =>
          rewrite (bind_ok _ _ _ _ _
                     (get_conjugacy_classes_matrices_cached ext c m st
                        ltac:(fields; exact Hc) ltac:(fields; exact Hm)))
      | |- context [bind (lift ?o) _ _] => destruct o eqn:?
      | |- context [bind (deref ?l) _ ?st] =>
          let E := fresh "E" in
          destruct (heap st !! l) eqn:E;
          [ rewrite (bind_deref _ _ _ _ E) | rewrite (bind_deref_None _ _ _ E) ]
      | |- context [bind (match ?x with _ => _ end) _ _] => destruct x eqn:?
      | |- context [match ?x with _ => _ end ?st] => destruct x eqn:?
      end ];
    try (cbn [snd]; split;
         [ reflexivity
         | apply (saturated_fields s); [reflexivity .. | exact Hsat] ]).
Qed.

Lemma sage_calls_log_svd s : sage_calls (log_calls [CallSvd] s) = sage_calls s.
Proof. reflexivity. Qed.

Lemma saturated_log c s : saturated s -> saturated (log_calls c s).
Proof. apply saturated_fields; reflexivity. Qed.

Lemma transformation_loop_calls ext degens js :
  forall result s,
    saturated s ->
    sage_calls (snd (transformation_loop ext degens js result s)) = sage_calls s /\
    saturated (snd (transformation_loop ext degens js result s)).
Proof.
  induction js as [|j js IH]; intros result s Hsat; cbn [transformation_loop].
  - split; [reflexivity | exact Hsat].
  - pose proof Hsat as (_ & [t Ht] & _).
    unfold transformation_step.
    rewrite ?bind_assoc.
    rewrite (bind_ok _ _ _ _ _ (get_character_table_cached ext t s Ht)).
    cbv beta. rewrite ?bind_assoc.
    destruct (sage_entry t (Z.of_nat j) 0) as [dim|e];
      [rewrite bind_lift_ok | rewrite bind_lift_raise; split; [reflexivity | exact Hsat]].
    cbv beta. rewrite ?bind_assoc.
    destruct (getitem_nat degens j) as [dj|e];
      [rewrite bind_lift_ok | rewrite bind_lift_raise; split; [reflexivity | exact Hsat]].
    cbv beta. destruct (dj =? 0).
    + rewrite bind_ret. apply IH, Hsat.
    + destruct (get_projection_operator_calls ext (Z.of_nat j) s Hsat) as [Hc1 Hs1].
      destruct (get_projection_operator ext (Z.of_nat j) s) as [[P|e] s1] eqn:EP;
        cbn [snd] in Hc1, Hs1.
      * rewrite ?bind_assoc. rewrite (bind_ok _ _ _ _ _ EP).
        assert (Hq : sage_calls s1 = sage_calls s)
          by (unfold sage_calls; rewrite Hc1; reflexivity).
        destruct (collect_singular_vectors_frame ext dim dj P result s1)
          as (r & s2 & E2 & Hs2).
        assert (Hq2 : sage_calls s2 = sage_calls s)
          by (destruct Hs2 as [-> | ->]; [|rewrite sage_calls_log_svd]; exact Hq).
        assert (Hsat2 : saturated s2)
          by (destruct Hs2 as [-> | ->]; [|apply saturated_log]; exact Hs1).
        destruct r as [result'|e].
        -- rewrite (bind_ok _ _ _ _ _ E2). rewrite <- Hq2. apply IH, Hsat2.
        -- rewrite (bind_raise _ _ _ _ _ E2). split; [exact Hq2 | exact Hsat2].
      * rewrite ?bind_assoc. rewrite (bind_raise _ _ _ _ _ EP).
        split; [unfold sage_calls; cbn [snd]; rewrite Hc1; reflexivity | exact Hs1].
Qed.

(** X15. Once the degeneracies have been computed (every field of Sage
    data is filled), [get_projection_operator] fetches nothing, for any
    index and whatever it returns or raises: the log of the fetching
    calls (the group, the character table, the conjugacy classes, the
    list of a class, a singular value decomposition) is as it was, and
    those fields stay filled.  [group.order()], which is evaluated on
    the cached group, is not such a call. *)
Theorem projection_operator_reads_cache ext j s :
  saturated s ->
  calls (snd (get_projection_operator ext j s)) = calls s /\
  saturated (snd (get_projection_operator ext j s)).
Proof. apply get_projection_operator_calls. Qed.

Lemma projection_operator_reads_cache_K2 :
  let s := snd (get_IRR_degeneracies K2_ext K2_network) in
  saturated s /\
  calls (snd (get_projection_operator K2_ext 1 s)) = calls s /\
  saturated (snd (get_projection_operator K2_ext 1 s)).
Proof.
  assert (H : saturated (snd (get_IRR_degeneracies K2_ext K2_network)))
    by (vm_compute; repeat split; eexists; reflexivity).
  split; [exact H|].
  apply (projection_operator_reads_cache K2_ext 1 _ H).
Defined.

(** X16. Once the degeneracies have been computed,
    [get_transformation_operator] fetches nothing more from Sage, whether
    it returns or raises: the only entries it adds to the log of the
    fetching calls are singular value decompositions, and the group, the
    character table, the conjugacy classes and the lists of the classes
    are not asked for again.  [group.order()], which is evaluated on the
    cached group for each operator computed, is not such a call. *)
Theorem transformation_operator_calls_only_svd ext s :
  saturated s ->
  sage_calls (snd (get_transformation_operator ext s)) = sage_calls s /\
  saturated (snd (get_transformation_operator ext s)).
Proof.
  intros Hsat. pose proof Hsat as (_ & _ & _ & _ & [d Hd]).
  assert (Hend : forall s1 : NetworkIRR,
             sage_calls s1 = sage_calls s -> saturated s1 ->
             sage_calls (snd ((o <- gets _transformation_operator ;;
                               match o with
                               | None => raise AttributeError
                               | Some l => a <- deref l ;; alloc a
                               end)%py s1)) = sage_calls s /\
             saturated (snd ((o <- gets _transformation_operator ;;
                              match o with
                              | None => raise AttributeError
                              | Some l => a <- deref l ;; alloc a
                              end)%py s1))).
  { intros s1 Hq Hs. rewrite bind_gets.
    destruct (_transformation_operator s1) as [l|]; [|split; assumption].
    unfold bind, deref, alloc, modify, ret, raise.
    destruct (heap s1 !! l); cbn [snd]; [|split; assumption].
    split; [exact Hq | revert Hs; apply saturated_fields; reflexivity]. }
  assert (Hcompute : forall s1 : NetworkIRR,
             s1 = s ->
             let r := (degens <- get_IRR_degeneracies ext ;;
                       result <- transformation_loop ext degens
                                   (seq 0 (length degens)) [] ;;
                       l <- alloc (np_array result) ;;
                       modify (set_transformation_operator l))%py s1 in
             sage_calls (snd r) = sage_calls s /\ saturated (snd r)).
  { intros s1 ->. cbv zeta.
    rewrite (bind_ok _ _ _ _ _ (get_IRR_degeneracies_cached ext d s Hd)).
    destruct (transformation_loop_calls ext d (seq 0 (length d)) [] s Hsat)
      as [Hq Hs].
    destruct (transformation_loop ext d (seq 0 (length d)) [] s) as [[res|e] s2] eqn:EL;
      cbn [snd] in Hq, Hs.
    - rewrite (bind_ok _ _ _ _ _ EL), bind_alloc. unfold modify.
      cbn [snd]. split; [exact Hq | revert Hs; apply saturated_fields; reflexivity].
    - rewrite (bind_raise _ _ _ _ _ EL). split; [exact Hq | exact Hs]. }
  assert (Hbody : forall s1 : NetworkIRR,
             s1 = s ->
             sage_calls (snd (((degens <- get_IRR_degeneracies ext ;;
                       result <- transformation_loop ext degens
                                   (seq 0 (length degens)) [] ;;
                       l <- alloc (np_array result) ;;
                       modify (set_transformation_operator l)) ;;
                      o <- gets _transformation_operator ;;
                      match o with
                      | None => raise AttributeError
                      | Some l => a <- deref l ;; alloc a
                      end)%py s1)) = sage_calls s /\
             saturated (snd (((degens <- get_IRR_degeneracies ext ;;
                       result <- transformation_loop ext degens
                                   (seq 0 (length degens)) [] ;;
                       l <- alloc (np_array result) ;;
                       modify (set_transformation_operator l)) ;;
                      o <- gets _transformation_operator ;;
                      match o with
                      | None => raise AttributeError
                      | Some l => a <- deref l ;; alloc a
                      end)%py s1))).
  { intros s1 ->. specialize (Hcompute s eq_refl). cbv zeta in Hcompute.
    destruct Hcompute as [Hq Hs].
    match type of Hq with
    | sage_calls (snd ?m) = _ => destruct m as [[u|e] s3] eqn:Em
    end; cbn [snd] in Hq, Hs.
    - rewrite (bind_ok _ _ _ _ _ Em). apply Hend; assumption.
    - rewrite (bind_raise _ _ _ _ _ Em). split; assumption. }
  unfold get_transformation_operator, transformation_is_None.
  rewrite bind_assoc, bind_gets.
  destruct (_transformation_operator s) as [l|] eqn:El.
  - rewrite bind_assoc.
    destruct (heap s !! l) as [a|] eqn:Ea;
      [ rewrite (bind_deref _ _ _ _ Ea)
      | rewrite (bind_deref_None _ _ _ Ea); split; [reflexivity | exact Hsat] ].
    destruct (ndarray_eq_None a) as [[|]|e];
      [ rewrite bind_lift_ok | rewrite bind_lift_ok
      | rewrite bind_lift_raise; split; [reflexivity | exact Hsat] ].
    + apply Hbody. reflexivity.
    + rewrite bind_ret. apply Hend; [reflexivity | exact Hsat].
  - rewrite bind_ret. apply Hbody. reflexivity.
Qed.

Lemma transformation_operator_calls_only_svd_K2 :
  let s := snd (get_IRR_degeneracies K2_ext K2_network) in
  saturated s /\
  sage_calls (snd (get_transformation_operator K2_ext s)) = sage_calls s /\
  saturated (snd (get_transformation_operator K2_ext s)).
Proof.
  assert (H : saturated (snd (get_IRR_degeneracies K2_ext K2_network)))
    by (vm_compute; repeat split; eexists; reflexivity).
  split; [exact H|].
  apply (transformation_operator_calls_only_svd K2_ext _ H).
Defined.

(** *** A failure inside the loop of [get_IRR_degeneracies] *)

Lemma oracle_good_set_degeneracies ext g d s :
  oracle_good ext g s -> oracle_good ext g (set_IRR_degeneracies d s).
Proof. intros [H1 H2 H3 H4 H5]. constructor; assumption. Qed.

Lemma degeneracies_loop_partial order t m n ks :
  forall acc s,
    _IRR_degeneracies s = Some acc ->
    exists r s' acc',
      degeneracies_loop order t m n ks s = (r, s') /\
      _IRR_degeneracies s' = Some (acc ++ acc') /\
      _projection_operators s' = _projection_operators s /\
      (length acc' <= length ks)%nat /\
      (forall e, r = Raise e -> (length acc' < length ks)%nat).
Proof.
  induction ks as [|i ks IH]; intros acc s Hacc; cbn [degeneracies_loop].
  - exists (Ok tt), s, []. rewrite app_nil_r.
    repeat split; [exact Hacc | cbn; lia | discriminate].
  - destruct (degeneracy_total order t m i (seq 0 n) czero) as [tot|e].
    + rewrite bind_lift_ok. unfold append_degeneracy.
      rewrite ?bind_assoc, bind_gets, Hacc, bind_modify.
      destruct (IH (acc ++ [py_round (re tot)])
                  (set_IRR_degeneracies (acc ++ [py_round (re tot)]) s) eq_refl)
        as (r & s' & acc' & E & Hd & Hp & Hle & Hlt).
      exists r, s', (py_round (re tot) :: acc').
      split; [exact E|]. split; [rewrite Hd, <- app_assoc; reflexivity|].
      split; [exact Hp|]. cbn [length]. split; [lia|].
      intros e He. specialize (Hlt e He). lia.
    + rewrite bind_lift_raise. exists (Raise e), s, []. rewrite app_nil_r.
      repeat split; [exact Hacc | cbn; lia | cbn; lia].
Qed.

(** X17. When the Sage data is in place but the loop of
    [get_IRR_degeneracies] raises, the list begun before the loop stays
    in the cache with fewer entries than the character table has
    columns.  The next call returns that short list without an error,
    and [get_projection_operator] then sizes its list of slots by it, so
    that the index just past it is refused with an [IndexError]. *)
Theorem degeneracies_partial_after_raise ext g s row e s1 :
  oracle_good ext g s ->
  _IRR_degeneracies s = None ->
  character_table g !! 0%nat = Some row ->
  get_IRR_degeneracies ext s = (Raise e, s1) ->
  exists d,
    (length d < length row)%nat /\
    _IRR_degeneracies s1 = Some d /\
    get_IRR_degeneracies ext s1 = (Ok d, s1) /\
    (_projection_operators s = None ->
     fst (get_projection_operator ext (Z.of_nat (length d)) s1) = Raise IndexError).
Proof.
  intros Hgood Hnone Hrow Hcall.
  unfold get_IRR_degeneracies in Hcall.
  rewrite bind_gets, Hnone in Hcall.
  destruct (get_character_table_run ext g s Hgood)
    as (s2 & E2 & G2 & _ & (_ & P2 & _) & D2 & _).
  rewrite (bind_ok _ _ _ _ _ E2) in Hcall.
  unfold getitem_nat in Hcall. rewrite Hrow, bind_lift_ok in Hcall.
  destruct (get_automorphism_group_run ext g s2 G2)
    as (s3 & E3 & G3 & _ & (_ & P3 & _) & D3 & _).
  rewrite (bind_ok _ _ _ _ _ E3), bind_modify in Hcall.
  destruct (get_conjugacy_classes_matrices_run ext g
              (set_IRR_degeneracies [] s3)
              (oracle_good_set_degeneracies ext g [] s3 G3))
    as (s5 & E5 & G5 & _ & (_ & P5 & _) & D5).
  rewrite (bind_ok _ _ _ _ _ E5) in Hcall.
  destruct (degeneracies_loop_partial (order g) (character_table g)
              (conjugacy_classes g) (length row) (seq 0 (length row)) [] s5 D5)
    as (r & s6 & d & E6 & D6 & P6 & _ & Hlt).
  rewrite ?bind_assoc in Hcall.
  destruct r as [[]|e'].
  - rewrite (bind_ok _ _ _ _ _ E6), bind_gets, D6 in Hcall. discriminate Hcall.
  - rewrite (bind_raise _ _ _ _ _ E6) in Hcall.
    injection Hcall as <- <-.
    specialize (Hlt e' eq_refl). rewrite length_seq in Hlt.
    exists d. cbn [app] in D6.
    split; [exact Hlt|]. split; [exact D6|].
    split; [apply get_IRR_degeneracies_cached, D6|].
    intros Hp.
    assert (Hp6 : _projection_operators s6 = None)
      by (rewrite P6, P5; cbn; rewrite P3, P2; exact Hp).
    unfold get_projection_operator.
    rewrite (bind_ok _ _ _ _ _ (get_IRR_degeneracies_cached ext d s6 D6)).
    rewrite ?bind_assoc, bind_gets, Hp6, bind_modify, bind_gets.
    cbn [_projection_operators set_projection_operators].
    unfold py_getitem.
    change (default [] (Some (repeat None (length d))))
      with (repeat (@None loc) (length d)).
    rewrite repeat_length, py_index_out_of_range by lia.
    rewrite bind_lift_raise. reflexivity.
Qed.

Lemma broken_oracle_good : oracle_good broken_ext broken_group trivial_network.
Proof.
  constructor;
    [ eexists _, _, _; repeat split; reflexivity
    | left; reflexivity | left; reflexivity | left; reflexivity | left; reflexivity ].
Defined.

Lemma degeneracies_partial_after_raise_broken :
  let s1 := snd (get_IRR_degeneracies broken_ext trivial_network) in
  get_IRR_degeneracies broken_ext trivial_network = (Raise IndexError, s1) /\
  exists d,
    (length d < 1)%nat /\
    _IRR_degeneracies s1 = Some d /\
    get_IRR_degeneracies broken_ext s1 = (Ok d, s1) /\
    (_projection_operators trivial_network = None ->
     fst (get_projection_operator broken_ext (Z.of_nat (length d)) s1)
     = Raise IndexError).
Proof.
  assert (H : get_IRR_degeneracies broken_ext trivial_network
              = (Raise IndexError, snd (get_IRR_degeneracies broken_ext trivial_network)))
    by (vm_compute; reflexivity).
  split; [exact H|].
  apply (degeneracies_partial_after_raise broken_ext broken_group trivial_network
           [of_Z 1] IndexError _ broken_oracle_good eq_refl eq_refl H).
Defined.

(** *** The cached transformation operator *)

(** X18. Once a transformation operator is cached, a request for it
    computes nothing: a matrix of at most one entry is copied into a new
    array and returned, and for a matrix of two entries or more the
    comparison with [None] raises [ValueError] and the object is left as
    it was. *)
Theorem get_transformation_operator_again ext s l a :
  _transformation_operator s = Some l -> heap s !! l = Some a ->
  get_transformation_operator ext s
  = if (arr_size a <=? 1)%nat
    then (Ok (length (heap s)), set_heap (heap s ++ [a]) s)
    else (Raise ValueError, s).
Proof.
  intros Hl Ha.
  rewrite (get_transformation_operator_cached ext s l a Hl Ha).
  unfold ndarray_eq_None.
  destruct (arr_size a) as [|[|n]]; reflexivity.
Qed.

Lemma get_transformation_operator_again_trivial :
  let s := snd (get_transformation_operator trivial_ext trivial_network) in
  let a := mkarray complex128 [[of_Z 1]] in
  _transformation_operator s = Some 2%nat /\ heap s !! 2%nat = Some a /\
  get_transformation_operator trivial_ext s
  = if (arr_size a <=? 1)%nat
    then (Ok (length (heap s)), set_heap (heap s ++ [a]) s)
    else (Raise ValueError, s).
Proof.
  assert (H1 : _transformation_operator
                 (snd (get_transformation_operator trivial_ext trivial_network))
               = Some 2%nat) by (vm_compute; reflexivity).
  assert (H2 : heap (snd (get_transformation_operator trivial_ext trivial_network))
                 !! 2%nat = Some (mkarray complex128 [[of_Z 1]]))
    by (vm_compute; reflexivity).
  split; [exact H1|]. split; [exact H2|].
  exact (get_transformation_operator_again trivial_ext _ 2%nat _ H1 H2).
Defined.

(** *** From the constructor on *)

(** X19. An object constructed on a matrix answers from whatever was in
    memory before: its degeneracies are those of the group Sage gives for
    the matrix, and the first request for the operator of an IRR returns
    the projection of that IRR, of the size of the matrix.  Constructed
    with the default argument [None], it raises [AttributeError]. *)
Theorem constructed_object_answers ext g orb a s0 (i : nat) :
  sage_automorphism_group ext a = Some (g, orb) ->
  valid_table g -> valid_matrices (length (arr_rows a)) g ->
  (i < Spec.numIRRs g)%nat ->
  (exists s s1 l s2,
     __init__ (Some a) s0 = (Ok tt, s) /\
     get_IRR_degeneracies ext s = (Ok (Spec.degeneracies g), s1) /\
     get_projection_operator ext (Z.of_nat i) s1 = (Ok l, s2) /\
     heap s2 !! l = Some (Spec.projection_array g (length (arr_rows a)) i)) /\
  fst (__init__ None s0) = Raise AttributeError.
Proof.
  intros Hsage Htable Hmat Hi. split; [|reflexivity].
  destruct (init_run ext g orb a s0 Hsage) as (s & E0 & G0 & Hn & Hslots & _).
  destruct (get_IRR_degeneracies_run ext g Htable s G0)
    as (s1 & E1 & G1 & F1 & (_ & P1 & _) & _).
  assert (Hn1 : _nnodes s1 = length (arr_rows a))
    by (rewrite (frame_nnodes _ _ F1); exact Hn).
  assert (Hslot1 : slot s1 i = None)
    by (unfold slot; rewrite P1; apply Hslots).
  destruct (get_projection_operator_run ext g Htable s1 (Z.of_nat i) G1
              ltac:(rewrite Hn1; exact Hmat))
    as (r & s2 & E2 & _ & _ & _ & _ & Hcase).
  cbv zeta in Hcase. rewrite (py_index_nat _ _ Hi), Hslot1, Hn1 in Hcase.
  destruct Hcase as (-> & Hheap & _).
  exists s, s1, (length (heap s1)), s2.
  split; [exact E0|]. split; [exact E1|]. split; [exact E2|].
  rewrite Hheap. apply list_lookup_middle. reflexivity.
Qed.

Lemma constructed_object_answers_K2 :
  sage_automorphism_group K2_ext K2_adjmat = Some (K2_group, [[0%nat; 1%nat]]) /\
  valid_table K2_group /\ valid_matrices (length (arr_rows K2_adjmat)) K2_group /\
  (1 < Spec.numIRRs K2_group)%nat /\
  (exists s s1 l s2,
     __init__ (Some K2_adjmat) new_object = (Ok tt, s) /\
     get_IRR_degeneracies K2_ext s = (Ok (Spec.degeneracies K2_group), s1) /\
     get_projection_operator K2_ext (Z.of_nat 1) s1 = (Ok l, s2) /\
     heap s2 !! l
     = Some (Spec.projection_array K2_group (length (arr_rows K2_adjmat)) 1)) /\
  fst (__init__ None new_object) = Raise AttributeError.
Proof.
  assert (Ht : valid_table K2_group) by example_valid_table.
  assert (Hm : valid_matrices (length (arr_rows K2_adjmat)) K2_group)
    by example_valid_matrices.
  assert (Hi : (1 < Spec.numIRRs K2_group)%nat) by (vm_compute; lia).
  split; [reflexivity|]. split; [exact Ht|]. split; [exact Hm|]. split; [exact Hi|].
  apply (constructed_object_answers K2_ext K2_group [[0%nat; 1%nat]] K2_adjmat
           new_object 1 eq_refl Ht Hm Hi).
Defined.
